(** * BINGEDRONE route planner

    A shallow embedding of the route logic of [app.js] ([planRoute],
    [middlePoint], [closest], [shiftClosestTruck], [extract]) and the
    properties its specification states about it, then of the page around
    it: [fetchList], [showRoute] and [drawRouteLine], the handlers that ask
    for a route, and [filterTrucks].  [showTrucks], which writes markup
    into the page, is not modelled.

    JavaScript numbers are IEEE 754 binary64 values: they are modelled by
    Rocq's primitive [float], whose operations are the same correctly
    rounded ones.  Arrays are mutable objects: they live in a heap and are
    passed by reference, so that [splice], [push] and [unshift] are seen by
    every holder of the reference.  Trucks are only ever read: no field of a
    truck is assigned anywhere in the route logic, so an array slot holds
    the truck's record.  A JavaScript exception is an outcome of its own,
    and so is the [undefined] that [planRoute] can return. *)

From Stdlib Require Import ZArith List Floats Lia Permutation.
From Stdlib Require String Ascii.
From stdpp Require Import gmap list.

(** ** Numbers *)

(** The built-ins [Math.min] and [Math.max], after ECMAScript 21.3.2: the
    scan starts from +Infinity (resp. -Infinity), a NaN argument makes the
    result NaN, and -0 is below +0.  The arguments are the elements of the
    array that is spread; an engine's limit on their number is not
    modelled. *)
Module Math.

Fixpoint min_from (lowest : float) (values : list float) : float :=
  match values with
  | [] => lowest
  | number :: rest =>
      if is_nan number then nan
      else
        let lowest :=
          if Leibniz.eqb number neg_zero && Leibniz.eqb lowest zero
          then neg_zero else lowest in
        let lowest := if (number <? lowest)%float then number else lowest in
        min_from lowest rest
  end.

Definition min (values : list float) : float := min_from infinity values.

Fixpoint max_from (highest : float) (values : list float) : float :=
  match values with
  | [] => highest
  | number :: rest =>
      if is_nan number then nan
      else
        let highest :=
          if Leibniz.eqb number zero && Leibniz.eqb highest neg_zero
          then zero else highest in
        let highest := if (highest <? number)%float then number else highest in
        max_from highest rest
  end.

Definition max (values : list float) : float := max_from neg_infinity values.

End Math.

(** ** Data *)

(** A truck, as far as routing reads it: the [id] given by [fetchList]
    ([index + 1], an integer) and the pixel coordinates [x] and [y].  The
    other fields (name, menu, location) are never read by the route logic. *)
Module Truck.
Record t : Type := mk { id : Z; x : float; y : float }.
End Truck.

(** What an array slot or a variable can hold here: a truck, or
    [null]/[undefined] ([None]); reading a field of the latter throws. *)
Abbreviation value := (option Truck.t).

(** References to arrays. *)
Abbreviation loc := nat.

(** The program state: the heap of arrays and the global [displayedList]
    ([None] while it is [undefined]). *)
Record state : Type := State {
  heap : gmap nat (list value);
  displayedList : option loc
}.

Inductive exn : Type := TypeError.

(** Results of computations that only read. *)
Inductive res (A : Type) : Type :=
| Ok (a : A)
| Err (e : exn).
Arguments Ok {A} a.
Arguments Err {A} e.

(** Results of computations on the state; [OutOfFuel] is the model's, for
    a [while] loop cut short. *)
Inductive outcome (A : Type) : Type :=
| Return (a : A) (s : state)
| Throw (e : exn) (s : state)
| OutOfFuel.
Arguments Return {A} a s.
Arguments Throw {A} e s.
Arguments OutOfFuel {A}.

Definition M (A : Type) : Type := state → outcome A.

#[global] Instance res_ret : MRet res := λ A a, Ok a.
#[global] Instance res_bind : MBind res := λ A B f m,
  match m with Ok a => f a | Err e => Err e end.

#[global] Instance M_ret : MRet M := λ A a s, Return a s.
#[global] Instance M_bind : MBind M := λ A B f m s,
  match m s with
  | Return a s' => f a s'
  | Throw e s' => Throw e s'
  | OutOfFuel => OutOfFuel
  end.

Definition lift {A} (r : res A) : M A := λ s,
  match r with Ok a => Return a s | Err e => Throw e s end.

Definition out_of_fuel {A} : M A := λ _, OutOfFuel.

(** *** Heap access *)

Definition set_heap (h : gmap nat (list value)) (s : state) : state :=
  State h (displayedList s).

(** Reading through a reference; a reference that holds no array counts as
    [undefined]. *)
Definition load (l : loc) : M (list value) := λ s,
  match heap s !! l with
  | Some a => Return a s
  | None => Throw TypeError s
  end.

Definition store (l : loc) (a : list value) : M unit := λ s,
  Return tt (set_heap (<[l:=a]> (heap s)) s).

Definition alloc (a : list value) : M loc := λ s,
  let l := fresh (dom (heap s)) in
  Return l (set_heap (<[l:=a]> (heap s)) s).

(** Reading the global [displayedList] to use it as an object. *)
Definition get_displayedList : M loc := λ s,
  match displayedList s with
  | Some l => Return l s
  | None => Throw TypeError s
  end.

(** [v.x], [{x, y, id} = v]: property access on a value. *)
Definition deref (v : value) : res Truck.t :=
  match v with
  | Some t => Ok t
  | None => Err TypeError
  end.

(** [const [a, b] = r]: destructuring [null] throws. *)
Definition destructure {A} (r : option A) : res A :=
  match r with
  | Some p => Ok p
  | None => Err TypeError
  end.

(** *** Array methods *)

(** [a.map(f)] *)
Fixpoint array_map {A B} (f : A → res B) (a : list A) : res (list B) :=
  match a with
  | [] => Ok []
  | v :: rest =>
      b ← f v;
      bs ← array_map f rest;
      mret (b :: bs)
  end.

(** [a.reduce(f, init)] *)
Fixpoint array_reduce {A B} (f : B → A → res B) (a : list A) (acc : B) : res B :=
  match a with
  | [] => Ok acc
  | v :: rest =>
      acc' ← f acc v;
      array_reduce f rest acc'
  end.

(** [a.findIndex(p)], scanning from index [i]; [None] is [-1]. *)
Fixpoint findIndex_from {A} (p : A → res bool) (a : list A) (i : nat) : res (option nat) :=
  match a with
  | [] => Ok None
  | v :: rest =>
      b ← p v;
      if b : bool then mret (Some i) else findIndex_from p rest (S i)
  end.

Definition findIndex {A} (p : A → res bool) (a : list A) : res (option nat) :=
  findIndex_from p a 0.

(** [a.slice(0)]: a fresh array with the same elements. *)
Definition slice0 (a : loc) : M loc :=
  vs ← load a;
  alloc vs.

(** [a.push(v)] *)
Definition push (a : loc) (v : value) : M unit :=
  vs ← load a;
  store a (vs ++ [v]).

(** [a.unshift(v)] *)
Definition unshift (a : loc) (v : value) : M unit :=
  vs ← load a;
  store a (v :: vs).

(** [a.splice(index, 1)[0]] for an index within the array *)
Definition splice1 (a : loc) (index : nat) : M value :=
  vs ← load a;
  store a (delete index vs);;
  mret (default None (vs !! index)).

(** ** The route logic of app.js *)

(** [middlePoint(trucks)] *)
Definition middlePoint (trucks : loc) : M (float * float) :=
  ts ← load trucks;
  xs ← lift (array_map (λ truck, t ← deref truck; mret (Truck.x t)) ts);
  ys ← lift (array_map (λ truck, t ← deref truck; mret (Truck.y t)) ts);
  mret ((Math.min xs + Math.max xs) / 2, (Math.min ys + Math.max ys) / 2)%float.

(** The callback of the [reduce] in [closest]. *)
Definition closest_callback (x1 y1 : float)
    (acc : option (Z * float)) (v : value) : res (option (Z * float)) :=
  t ← deref v;
  let x2 := Truck.x t in
  let y2 := Truck.y t in
  let id := Truck.id t in
  let dx := (x1 - x2)%float in
  let dy := (y1 - y2)%float in
  let distance := sqrt ((dx * dx) + (dy * dy))%float in
  match acc with
  | None => mret (Some (id, distance))
  | Some (_, acc1) =>
      if (distance <? acc1)%float then mret (Some (id, distance))
      else mret acc
  end.

(** [closest(trucks, [x1, y1])]; [None] is [null]. *)
Definition closest (trucks : loc) (target : float * float) : M (option (Z * float)) :=
  let '(x1, y1) := target in
  ts ← load trucks;
  if (length ts =? 0)%nat then mret None
  else lift (array_reduce (closest_callback x1 y1) ts None).

(** The callback of the [findIndex] in [extract]: [truck.id === id]. *)
Definition extract_callback (id : Z) (truck : value) : res bool :=
  t ← deref truck;
  mret (Truck.id t =? id)%Z.

(** [extract(trucks, id)] *)
Definition extract (trucks : loc) (id : Z) : M value :=
  ts ← load trucks;
  index ← lift (findIndex (extract_callback id) ts);
  match index with
  | None => mret None
  | Some index => splice1 trucks index
  end.

(** [shiftClosestTruck(source, dest)].  [dest[0]] and [dest.slice(-1)[0]]
    are the first and the last element, [undefined] on an empty array; the
    one-element array that [slice(-1)] makes is dropped at once and is not
    allocated here. *)
Definition shiftClosestTruck (source dest : loc) : M unit :=
  d ← load dest;
  let head : value := default None (d !! 0) in
  let tail : value := default None (last d) in
  h ← lift (deref head);
  c ← closest source (Truck.x h, Truck.y h);
  '(nextHeadId, headDistance) ← lift (destructure c);
  t ← lift (deref tail);
  c ← closest source (Truck.x t, Truck.y t);
  '(nextTailId, tailDistance) ← lift (destructure c);
  if (headDistance <? tailDistance)%float then
    v ← extract source nextHeadId;
    unshift dest v
  else
    v ← extract source nextTailId;
    push dest v.

(** [while (source.length) shiftClosestTruck(source, dest);] with at most
    [fuel] iterations. *)
Fixpoint while_source (fuel : nat) (source dest : loc) : M unit :=
  s ← load source;
  if (length s =? 0)%nat then mret tt
  else
    match fuel with
    | 0 => out_of_fuel
    | S fuel =>
        shiftClosestTruck source dest;;
        while_source fuel source dest
    end.

(** [planRoute(list)]: lines 129 to 139, which seed the route with its
    first two trucks and return the references [source] and [dest]. *)
Definition planRoute_seed : M (loc * loc) :=
  dl ← get_displayedList;
  source ← slice0 dl;
  dl ← get_displayedList;
  '(x, y) ← middlePoint dl;
  c ← closest source (x, y);
  '(middleTruckId, _) ← lift (destructure c);
  middleTruck ← extract source middleTruckId;
  dest ← alloc [middleTruck];
  m ← lift (deref middleTruck);
  c ← closest source (Truck.x m, Truck.y m);
  '(secondTruckId, _) ← lift (destructure c);
  second ← extract source secondTruckId;
  push dest second;;
  mret (source, dest).

(** [planRoute(list)]; the result [None] is [undefined].  The parameter
    [list] is not read: the body works on the global [displayedList]. *)
Definition planRoute (fuel : nat) (list : loc) : M (option loc) :=
  dl ← get_displayedList;
  ts ← load dl;
  if (length ts <? 2)%nat then mret None
  else
    '(source, dest) ← planRoute_seed;
    while_source fuel source dest;;
    mret (Some dest).

(** ** The page around the route logic *)

(** *** Constants of app.js *)

Definition MAP_HEIGHT : float := 5519.
Definition MAP_WIDTH : float := 7195.
(** 37.81027 and -122.45673, as the binary64 values these literals denote. *)
Definition TOP_LAT : float := 0x1.2e7b6ed677708p+5.
Definition LEFT_LNG : float := (-0x1.e9d3b10774688p+6).
Definition HORIZONTAL_SCALE : float := 102500.
Definition VERTICAL_SCALE : float := 120000.

(** *** [fetchList] *)

(** An entry of the downloaded list, as far as [fetchList] and the route
    logic can read it: its [longitude] and [latitude], and the fields [id],
    [x] and [y] that the entry may carry itself ([None] when it has none).
    All are taken to be numbers, an id an integer. *)
Module Raw.
Record t : Type := mk {
  longitude : float;
  latitude : float;
  id : option Z;
  x : option float;
  y : option float
}.
End Raw.

(** [list.map((truck, index) => ({id: index + 1, x: ..., y: ..., ...truck}))],
    from index [index] on.  The spread [...truck] comes last in the object
    literal: a field [id], [x] or [y] of the entry replaces the computed
    one. *)
Fixpoint fetchList_map (index : Z) (list : list Raw.t) : Datatypes.list Truck.t :=
  match list with
  | [] => []
  | truck :: rest =>
      Truck.mk
        (default (index + 1)%Z (Raw.id truck))
        (default ((Raw.longitude truck - LEFT_LNG) * HORIZONTAL_SCALE)%float
           (Raw.x truck))
        (default ((TOP_LAT - Raw.latitude truck) * VERTICAL_SCALE)%float
           (Raw.y truck))
      :: fetchList_map (index + 1) rest
  end.

(** The test of the [filter] in [fetchList]; [a >= b] is [b <= a]. *)
Definition fetchList_filter (truck : Truck.t) : bool :=
  (0 <=? Truck.x truck)%float && (Truck.x truck <=? MAP_WIDTH)%float &&
  (0 <=? Truck.y truck)%float && (Truck.y truck <=? MAP_HEIGHT)%float.

(** [fetchList()], from the list that [response.json()] yields. *)
Definition fetchList (list : list Raw.t) : Datatypes.list Truck.t :=
  List.filter fetchList_filter (fetchList_map 0 list).

(** *** [showRoute] and [drawRouteLine] *)

(** The children of the SVG element [sfmap]: the route lines, with the
    four coordinates [drawRouteLine] sets (its other attributes are
    constants), and the other elements, which the route display leaves
    alone.  [drawRouteLine] is the only place that makes a line, and it puts
    it in [sfmap]: the lines of the document are taken to be those of
    [sfmap]. *)
Inductive svg : Type :=
| Line (x1 y1 x2 y2 : float)
| Other (n : nat).

Definition is_line (e : svg) : bool :=
  match e with Line _ _ _ _ => true | Other _ => false end.

(** [if (v)] on a number: false on [0], [-0] and [NaN]. *)
Definition truthy (v : float) : bool := negb (is_zero v || is_nan v).

(** [drawRouteLine(x1, y1, x2, y2)]: [sfmap.prepend(line)]. *)
Definition drawRouteLine (x1 y1 x2 y2 : float) (sfmap : list svg) : list svg :=
  Line x1 y1 x2 y2 :: sfmap.

(** The callback of the [forEach] in [showRoute], on the variables it
    updates: [lastX] and [lastY] ([None] while they are [undefined]) and
    the children of [sfmap]. *)
Definition showRoute_callback (acc : option (float * float) * list svg)
    (v : value) : res (option (float * float) * list svg) :=
  t ← deref v;
  let x := Truck.x t in
  let y := Truck.y t in
  let '(last, sfmap) := acc in
  let sfmap :=
    match last with
    | Some (lastX, lastY) =>
        if truthy lastX then drawRouteLine lastX lastY x y sfmap else sfmap
    | None => sfmap
    end in
  mret (Some (x, y), sfmap).

(** [showRoute()], from the children of [sfmap] to its children afterwards. *)
Definition showRoute (sfmap : list svg) : M (list svg) :=
  let sfmap := List.filter (λ e, negb (is_line e)) sfmap in
  dl ← get_displayedList;
  ts ← load dl;
  '(_, sfmap) ← lift (array_reduce showRoute_callback ts (None, sfmap));
  mret sfmap.

(** *** The handlers that plan a route *)

(** [displayedList = v] *)
Definition set_displayedList (v : option loc) : M unit := λ s,
  Return tt (State (heap s) v).

(** The [click] handler of the submit button, which is also what the
    [keyup] handler does on Enter:
    [displayedList = planRoute(displayedList); showRoute();].
    [planRoute] is given the value of [displayedList]; it never reads its
    parameter, so while that value is [undefined] any reference stands for
    it. *)
Definition submit_click (fuel : nat) (sfmap : list svg) : M (list svg) := λ s,
  (r ← planRoute fuel (default 0 (displayedList s));
   set_displayedList r;;
   showRoute sfmap) s.

(** *** [filterTrucks] *)

(** A string is its sequence of UTF-16 code units. *)
Abbreviation jsstring := (list N).

(** The code units of an ASCII literal. *)
Definition lit (s : String.string) : jsstring :=
  Ascii.N_of_ascii <$> String.list_ascii_of_string s.

(** The literal parts of the template of [matchString]. *)
Module Text.
Import String.
Definition space : jsstring := lit " "%string.
Definition food_trucks_carts : jsstring := lit " food trucks carts"%string.
End Text.

(** A truck object with the fields [filterTrucks] reads, taken to be
    strings. *)
Module Entry.
Record t : Type := mk {
  truck : Truck.t;
  name : jsstring;
  menu : jsstring;
  location : jsstring
}.
End Entry.

(** The class [[a-z0-9]] of the regular expression. *)
Definition alnum (c : N) : bool :=
  ((97 <=? c) && (c <=? 122) || (48 <=? c) && (c <=? 57))%N.

(** [s.replace(/[^a-z0-9]+/g, ' ')]: every maximal run of code units
    outside the class becomes one space; [in_run] tells that the run has
    begun. *)
Fixpoint replace_runs (in_run : bool) (s : jsstring) : jsstring :=
  match s with
  | [] => []
  | c :: rest =>
      if alnum c then c :: replace_runs false rest
      else if in_run then replace_runs true rest
      else 32%N :: replace_runs true rest
  end.

(** [s.split(' ')]; [token] is the token being read, reversed. *)
Fixpoint split_spaces (token : jsstring) (s : jsstring) : list jsstring :=
  match s with
  | [] => [rev token]
  | c :: rest =>
      if (c =? 32)%N then rev token :: split_spaces [] rest
      else split_spaces (c :: token) rest
  end.

(** [s.startsWith(search)], for [includes]. *)
Fixpoint starts_with (s search : jsstring) : bool :=
  match search, s with
  | [], _ => true
  | _ :: _, [] => false
  | c :: search', d :: s' => (c =? d)%N && starts_with s' search'
  end.

(** [s.includes(search)] *)
Fixpoint includes (s search : jsstring) : bool :=
  starts_with s search ||
  match s with
  | [] => false
  | _ :: rest => includes rest search
  end.

Section FilterTrucks.

(** [String.prototype.toLowerCase], the case mapping of Unicode: a
    parameter of what follows. *)
Variable toLowerCase : jsstring → jsstring.

(** The [searches] of [filterTrucks]. *)
Definition searches (searchString : jsstring) : list jsstring :=
  split_spaces [] (replace_runs false (toLowerCase searchString)).

(** The [matchString] of a truck. *)
Definition matchString (truck : Entry.t) : jsstring :=
  toLowerCase
    (Entry.name truck ++ Text.space ++ Entry.menu truck ++ Text.space ++
     Entry.location truck ++ Text.food_trucks_carts).

(** [filterTrucks(searchString)], from the global [fullList]. *)
Definition filterTrucks (fullList : list Entry.t) (searchString : jsstring)
    : list Entry.t :=
  let searches := searches searchString in
  List.filter
    (λ truck, forallb (λ search, includes (matchString truck) search) searches)
    fullList.

End FilterTrucks.

(** [toLowerCase] on strings of ASCII code units, where it only maps [A-Z]
    to [a-z]; for running samples. *)
Definition ascii_toLowerCase (s : jsstring) : jsstring :=
  (λ c, if (65 <=? c) && (c <=? 90) then c + 32 else c)%N <$> s.

(** ** Vocabulary of the specification *)

(** An array holding exactly the trucks [ts]. *)
Definition arr (ts : list Truck.t) : list value := Some <$> ts.

(** The distance [closest] computes between a target and a truck: the
    binary64 value of [Math.sqrt(dx * dx + dy * dy)]. *)
Definition distance (target : float * float) (t : Truck.t) : float :=
  let dx := (target.1 - Truck.x t)%float in
  let dy := (target.2 - Truck.y t)%float in
  sqrt (dx * dx + dy * dy)%float.

(** The centre of the bounding box of [ts], as [middlePoint] computes it. *)
Definition center (ts : list Truck.t) : float * float :=
  let xs := Truck.x <$> ts in
  let ys := Truck.y <$> ts in
  ((Math.min xs + Math.max xs) / 2, (Math.min ys + Math.max ys) / 2)%float.

(** The step of the [reduce] of [closest] on trucks, where the callback
    cannot throw. *)
Definition closest_step (target : float * float)
    (acc : option (Z * float)) (t : Truck.t) : option (Z * float) :=
  match acc with
  | None => Some (Truck.id t, distance target t)
  | Some (_, acc1) =>
      if (distance target t <? acc1)%float then Some (Truck.id t, distance target t)
      else acc
  end.

(** Coordinates that are numbers of the plane: neither NaN nor infinite. *)
Definition finite_point (p : float * float) : Prop :=
  is_finite p.1 && is_finite p.2 = true.

Definition finite_coords (ts : list Truck.t) : Prop :=
  forallb (λ t, is_finite (Truck.x t) && is_finite (Truck.y t)) ts = true.

Definition unique_ids (ts : list Truck.t) : Prop := NoDup (Truck.id <$> ts).

#[global] Instance unique_ids_dec ts : Decision (unique_ids ts).
Proof. unfold unique_ids. apply _. Defined.

(** [t], at index [i] of [ts], is nearest to [target]: no truck of [ts] is
    closer, and every truck before index [i] is strictly farther (among
    trucks at the same least distance, [t] comes first). *)
Definition nearest_at (ts : list Truck.t) (target : float * float)
    (i : nat) (t : Truck.t) : Prop :=
  ts !! i = Some t ∧
  (∀ t', t' ∈ ts → (distance target t <=? distance target t')%float = true) ∧
  (∀ j t', j < i → ts !! j = Some t' →
     (distance target t <? distance target t')%float = true).

(** [t], at index [i], is the first truck of [ts] whose id is [id]. *)
Definition first_with_id (ts : list Truck.t) (id : Z) (i : nat) (t : Truck.t) : Prop :=
  ts !! i = Some t ∧ Truck.id t = id ∧
  ∀ j t', j < i → ts !! j = Some t' → Truck.id t' ≠ id.

(** What [extract(ts, id)] removes for the [id] that [closest(ts, target)]
    returns: the truck [t], at index [i] of [ts], that is the first to carry
    that id. *)
Definition picks (ts : list Truck.t) (target : float * float)
    (i : nat) (t : Truck.t) : Prop :=
  ∃ id d, foldl (closest_step target) None ts = Some (id, d) ∧
          first_with_id ts id i t.

(** [v] is a least (greatest) element of [vs]. *)
Definition least (v : float) (vs : list float) : Prop :=
  v ∈ vs ∧ ∀ w, w ∈ vs → (v <=? w)%float = true.

Definition greatest (v : float) (vs : list float) : Prop :=
  v ∈ vs ∧ ∀ w, w ∈ vs → (w <=? v)%float = true.

(** Shapes of IEEE values, on their specification: a value carrying the
    sign [s], a value that is not below zero, a value that is finite. *)
Definition SFsigned (s : bool) (f : spec_float) : Prop :=
  match f with
  | S754_zero s' | S754_infinity s' | S754_finite s' _ _ => s' = s
  | S754_nan => False
  end.

Definition SFnonneg (f : spec_float) : Prop :=
  match f with
  | S754_zero _ | S754_infinity false | S754_finite false _ _ => True
  | _ => False
  end.

Definition SFfinite (f : spec_float) : Prop :=
  match f with
  | S754_zero _ | S754_finite _ _ _ => True
  | _ => False
  end.

(** The array that an outcome of [planRoute] returns, if it returns one. *)
Definition returned_route (o : outcome (option loc)) : option (list value) :=
  match o with
  | Return (Some dest) s => heap s !! dest
  | _ => None
  end.

(** The state in which array [l] holds [a]. *)
Definition with_array (l : loc) (a : list value) (s : state) : state :=
  set_heap (<[l:=a]> (heap s)) s.

(** The truck [fetchList] makes of the entry at index [index] of the
    download. *)
Definition placed (index : nat) (r : Raw.t) : Truck.t :=
  Truck.mk
    (default (Z.of_nat index + 1)%Z (Raw.id r))
    (default ((Raw.longitude r - LEFT_LNG) * HORIZONTAL_SCALE)%float (Raw.x r))
    (default ((TOP_LAT - Raw.latitude r) * VERTICAL_SCALE)%float (Raw.y r)).

(** No entry of the download carries an [id] of its own. *)
Definition no_own_id (raw : list Raw.t) : Prop :=
  forallb (λ r, match Raw.id r with None => true | Some _ => false end) raw = true.

(** The segments of a route: one from each truck to the next. *)
Fixpoint segments (ts : list Truck.t) : list svg :=
  match ts with
  | [] => []
  | a :: rest =>
      match rest with
      | [] => []
      | b :: _ => Line (Truck.x a) (Truck.y a) (Truck.x b) (Truck.y b) :: segments rest
      end
  end.

(** A line whose first coordinate passes [if (lastX)]. *)
Definition starts_truthy (e : svg) : bool :=
  match e with
  | Line x1 _ _ _ => truthy x1
  | Other _ => true
  end.

(** The elements of [sfmap] that are not lines. *)
Definition others (sfmap : list svg) : list svg :=
  List.filter (λ e, negb (is_line e)) sfmap.

(** The step of the [forEach] of [showRoute] on trucks, where the callback
    cannot throw. *)
Definition showRoute_step (acc : option (float * float) * list svg)
    (t : Truck.t) : option (float * float) * list svg :=
  (Some (Truck.x t, Truck.y t),
   match acc.1 with
   | Some (lastX, lastY) =>
       if truthy lastX then Line lastX lastY (Truck.x t) (Truck.y t) :: acc.2
       else acc.2
   | None => acc.2
   end).

(** ** Sample inputs *)
Module Sample.

(** The small case of the specification: A(0,0), B(10,0), C(5,1). *)
Definition A : Truck.t := Truck.mk 1 0 0.
Definition B : Truck.t := Truck.mk 2 10 0.
Definition C : Truck.t := Truck.mk 3 5 1.

(** Two more trucks, far from the first three. *)
Definition D : Truck.t := Truck.mk 4 100 100.
Definition E : Truck.t := Truck.mk 5 110 100.

(** The corners of a square of side 10. *)
Definition square : list Truck.t :=
  [Truck.mk 1 0 0; Truck.mk 2 10 0; Truck.mk 3 0 10; Truck.mk 4 10 10].

(** A state whose only array, at reference 0, holds [ts] and is the
    displayed list. *)
Definition displaying (ts : list Truck.t) : state :=
  State {[0 := arr ts]} (Some 0).

(** Two arrays, [A; B; C] at reference 0 and [D; E] at reference 1, with
    the displayed list at reference [l]. *)
Definition two_lists (l : loc) : state :=
  State (<[1 := arr [D; E]]> {[0 := arr [A; B; C]]}) (Some l).

(** A pool [D; E] at reference 0 and a route [A; C; B] at reference 1. *)
Definition extending : state :=
  State (<[1 := arr [A; C; B]]> {[0 := arr [D; E]]}) None.

End Sample.

(** Samples for the page around the route logic. *)
Module Page.

(** A downloaded list of entries that carry no [id], [x] or [y]: a point
    inside the map, one west of it, one whose latitude is not a number, the
    top left corner of the map, and another point inside. *)
Definition raw : list Raw.t :=
  [Raw.mk (-122.4375) 37.78125 None None None;
   Raw.mk (-123) 37.78125 None None None;
   Raw.mk (-122.4375) nan None None None;
   Raw.mk LEFT_LNG TOP_LAT None None None;
   Raw.mk (-122.40625) 37.78125 None None None].

(** A downloaded list whose first two entries carry the id 7, and whose
    second entry carries an [x] and a [y] beside a longitude that is not a
    number. *)
Definition raw_own : list Raw.t :=
  [Raw.mk LEFT_LNG TOP_LAT (Some 7%Z) None None;
   Raw.mk nan TOP_LAT (Some 7%Z) (Some 10%float) (Some 20%float);
   Raw.mk LEFT_LNG TOP_LAT None None None].

(** A route whose second truck has [x = 0]. *)
Definition edge_route : list Truck.t :=
  [Truck.mk 1 10 10; Truck.mk 2 0 20; Truck.mk 3 30 30].

(** Two trucks carrying the same id, and a third. *)
Definition twins : list Truck.t :=
  [Truck.mk 1 0 0; Truck.mk 1 10 0; Truck.mk 2 5 1].

(** The children of [sfmap] after an earlier route: a line and two images. *)
Definition drawn : list svg := [Line 1 2 3 4; Other 0; Other 1].

(** A truck whose x is not a number, in front of A. *)
Definition lost : Truck.t := Truck.mk 9 nan 0.

End Page.

(** Samples for [filterTrucks]. *)
Module Menu.
Import String.

Definition tacos : Entry.t :=
  Entry.mk Sample.A (lit "El Primo"%string) (lit "Tacos: burritos"%string)
    (lit "Main St"%string).

Definition noodles : Entry.t :=
  Entry.mk Sample.B (lit "Wok"%string) (lit "Noodles"%string)
    (lit "2nd St"%string).

Definition query : jsstring := lit "TACO & main!"%string.

Definition short_query : jsstring := lit "taco"%string.

Definition main_word : jsstring := lit "main"%string.

Definition blank : jsstring := lit " ?!"%string.

End Menu.

(** * Properties *)

(** ** Binary64 arithmetic

    The facts about the rounded operations that the route logic relies on,
    derived from the specification of the primitive floats. *)
Module Float64.

Lemma shr_1_nonneg mrs : (0 <= shr_m mrs)%Z → (0 <= shr_m (shr_1 mrs))%Z.
Proof. destruct mrs as [[|[p|p|]|p] r s]; simpl; lia. Qed.

Lemma iter_shr_1_nonneg n :
  ∀ mrs, (0 <= shr_m mrs)%Z → (0 <= shr_m (SpecFloat.iter_pos shr_1 n mrs))%Z.
Proof.
  induction n as [n IH|n IH|]; intros mrs H; simpl.
  - apply IH, IH, shr_1_nonneg, H.
  - apply IH, IH, H.
  - apply shr_1_nonneg, H.
Qed.

Lemma shr_nonneg mrs e n : (0 <= shr_m mrs)%Z → (0 <= shr_m (shr mrs e n).1)%Z.
Proof. destruct n; simpl; auto using iter_shr_1_nonneg. Qed.

Lemma shr_fexp_nonneg prec emax m e l :
  (0 <= m)%Z → (0 <= shr_m (shr_fexp prec emax m e l).1)%Z.
Proof.
  intros H. unfold shr_fexp. apply shr_nonneg.
  destruct l as [|[]]; simpl; exact H.
Qed.

Lemma round_nearest_even_nonneg m l : (0 <= m)%Z → (0 <= round_nearest_even m l)%Z.
Proof. destruct l as [|[]]; simpl; try destruct (Z.even m); lia. Qed.

(** Rounding a non-negative mantissa never makes a NaN, and keeps the sign. *)
Lemma binary_round_aux_signed prec emax sx mx ex lx :
  (0 <= mx)%Z → SFsigned sx (binary_round_aux prec emax sx mx ex lx).
Proof.
  intros H. unfold binary_round_aux.
  pose proof (shr_fexp_nonneg prec emax mx ex lx H) as H1.
  destruct (shr_fexp prec emax mx ex lx) as [mrs' e']. simpl in H1.
  pose proof (shr_fexp_nonneg prec emax _ e' loc_Exact
    (round_nearest_even_nonneg _ (loc_of_shr_record mrs') H1)) as H2.
  destruct (shr_fexp prec emax _ e' loc_Exact) as [mrs'' e'']. simpl in H2.
  destruct (shr_m mrs''); [reflexivity| |lia].
  destruct (Z.leb e'' (emax - prec)); reflexivity.
Qed.

Lemma binary_round_signed prec emax sx mx ex :
  SFsigned sx (binary_round prec emax sx mx ex).
Proof.
  unfold binary_round. destruct (shl_align _ _ _) as [mz ez].
  apply binary_round_aux_signed. lia.
Qed.

Lemma SFsigned_not_nan s f : SFsigned s f → f ≠ S754_nan.
Proof. by destruct f. Qed.

Lemma SFsigned_nonneg f : SFsigned false f → SFnonneg f.
Proof. destruct f as [| [] | | [] ]; simpl; done. Qed.

Lemma SFnonneg_not_nan f : SFnonneg f → f ≠ S754_nan.
Proof. by destruct f. Qed.

Lemma SFfinite_not_nan f : SFfinite f → f ≠ S754_nan.
Proof. by destruct f. Qed.

Lemma binary_normalize_not_nan prec emax m e sz :
  binary_normalize prec emax m e sz ≠ S754_nan.
Proof.
  destruct m; simpl; [done| |]; eapply SFsigned_not_nan, binary_round_signed.
Qed.

Lemma SFsub_not_nan prec emax a b :
  a ≠ S754_nan → SFfinite b → SFsub prec emax a b ≠ S754_nan.
Proof.
  destruct a as [[]|[]| |sa ma ea], b as [[]|[]| |sb mb eb]; simpl; try done.
  intros _ _. apply binary_normalize_not_nan.
Qed.

Lemma SFadd_finite_not_nan prec emax a b :
  SFfinite a → SFfinite b → SFadd prec emax a b ≠ S754_nan.
Proof.
  destruct a as [[]|[]| |sa ma ea], b as [[]|[]| |sb mb eb]; simpl; try done.
  intros _ _. apply binary_normalize_not_nan.
Qed.

Lemma SFmul_self_nonneg prec emax a :
  a ≠ S754_nan → SFnonneg (SFmul prec emax a a).
Proof.
  destruct a as [[]|[]| |sa ma ea]; simpl; try done.
  intros _. apply SFsigned_nonneg.
  replace (xorb sa sa) with false by (by destruct sa).
  apply binary_round_aux_signed. lia.
Qed.

Lemma SFadd_nonneg prec emax a b :
  SFnonneg a → SFnonneg b → SFnonneg (SFadd prec emax a b).
Proof.
  destruct a as [[]|[]| |[] ma ea], b as [[]|[]| |[] mb eb]; simpl; try done.
  intros _ _. apply SFsigned_nonneg, binary_round_signed.
Qed.

Lemma SFsqrt_nonneg prec emax a :
  SFnonneg a → SFnonneg (SFsqrt prec emax a).
Proof.
  destruct a as [[]|[]| |[] ma ea]; simpl; try done.
  intros _.
  destruct (SFsqrt_core_binary prec emax (Z.pos ma) ea) as [[mz ez] lz] eqn:E.
  apply SFsigned_nonneg, binary_round_aux_signed.
  unfold SFsqrt_core_binary in E.
  destruct (Z.sqrtrem _) as [q r] eqn:Eq in E.
  injection E as <- _ _.
  change q with (q, r).1. rewrite <- Eq, Z.sqrtrem_sqrt. apply Z.sqrt_nonneg.
Qed.

Lemma SFdiv_pos_not_nan prec emax a m e :
  a ≠ S754_nan → SFdiv prec emax a (S754_finite false m e) ≠ S754_nan.
Proof.
  destruct a as [[]|[]| |sa ma ea]; simpl; try done.
  intros _.
  destruct (SFdiv_core_binary prec emax (Z.pos ma) ea (Z.pos m) e) as [[mz ez] lz] eqn:E.
  eapply SFsigned_not_nan, binary_round_aux_signed.
  unfold SFdiv_core_binary in E.
  destruct (Z.div_eucl _ _) as [q r] eqn:Eq in E.
  injection E as <- _ _.
  match type of Eq with Z.div_eucl ?a ?b = _ =>
    assert (q = a / b)%Z as -> by (unfold Z.div; by rewrite Eq);
    assert (0 <= a)%Z
  end.
  { destruct (_ - _ - _)%Z; [lia| |lia]. apply Z.shiftl_nonneg. lia. }
  apply Z.div_pos; lia.
Qed.

(** The comparison of specifications is a strict order, total away from NaN. *)
Ltac sf_compare :=
  repeat match goal with
  | |- context [(?a ?= ?b)%Z] => destruct (Z.compare_spec a b)
  | H : context [(?a ?= ?b)%Z] |- _ => destruct (Z.compare_spec a b)
  | |- context [Pos.compare_cont Eq ?a ?b] =>
      change (Pos.compare_cont Eq a b) with (a ?= b)%positive
  | H : context [Pos.compare_cont Eq ?a ?b] |- _ =>
      change (Pos.compare_cont Eq a b) with (a ?= b)%positive in H
  | |- context [(?a ?= ?b)%positive] => destruct (Pos.compare_spec a b)
  | H : context [(?a ?= ?b)%positive] |- _ => destruct (Pos.compare_spec a b)
  end; simpl in *; try done; try lia.

Ltac sf_cases3 f g h :=
  destruct f as [?|[]| |[] ? ?], g as [?|[]| |[] ? ?], h as [?|[]| |[] ? ?];
  simpl; try done; sf_compare.

Ltac sf_cases2 f g :=
  destruct f as [?|[]| |[] ? ?], g as [?|[]| |[] ? ?];
  simpl; try done; sf_compare.

Lemma SFeqb_refl f : f ≠ S754_nan → SFeqb f f = true.
Proof.
  unfold SFeqb. destruct f as [?|[]| |[] m e]; simpl; try done; sf_compare.
Qed.

Lemma SFltb_irrefl f : SFltb f f = false.
Proof.
  unfold SFltb. destruct f as [?|[]| |[] m e]; simpl; try done; sf_compare.
Qed.

Lemma SFltb_trans f g h : SFltb f g = true → SFltb g h = true → SFltb f h = true.
Proof. unfold SFltb. sf_cases3 f g h. Qed.

Lemma SFltb_leb_trans f g h : SFltb f g = true → SFleb g h = true → SFltb f h = true.
Proof. unfold SFltb, SFleb. sf_cases3 f g h. Qed.

Lemma SFleb_trans f g h : SFleb f g = true → SFleb g h = true → SFleb f h = true.
Proof. unfold SFleb. sf_cases3 f g h. Qed.

Lemma SFleb_total f g :
  f ≠ S754_nan → g ≠ S754_nan → SFltb f g = false → SFleb g f = true.
Proof. unfold SFltb, SFleb. sf_cases2 f g. Qed.

Lemma SFleb_refl f : f ≠ S754_nan → SFleb f f = true.
Proof. unfold SFleb. destruct f as [?|[]| |[] m e]; simpl; try done; sf_compare. Qed.

Lemma SFltb_leb f g : SFltb f g = true → SFleb f g = true.
Proof. unfold SFltb, SFleb. by destruct (SFcompare f g) as [[]|]. Qed.

Lemma SFleb_not_ltb f g : SFleb f g = true → SFltb g f = false.
Proof. unfold SFltb, SFleb. sf_cases2 f g. Qed.

(** The same facts on the primitive values. *)

Lemma is_nan_false a : is_nan a = false ↔ Prim2SF a ≠ S754_nan.
Proof.
  unfold is_nan. rewrite FloatAxioms.eqb_spec, negb_false_iff. split.
  - intros H E. rewrite E in H. discriminate.
  - apply SFeqb_refl.
Qed.

Lemma is_finite_true a : is_finite a = true ↔ SFfinite (Prim2SF a).
Proof.
  unfold is_finite, is_infinity, is_nan.
  rewrite !FloatAxioms.eqb_spec, FloatAxioms.abs_spec.
  change (Prim2SF infinity) with (S754_infinity false).
  unfold SFeqb.
  destruct (Prim2SF a) as [?|[]| |[] m e] eqn:E; simpl; try done; sf_compare.
Qed.

Lemma nonneg_true a : (0 <=? a)%float = true ↔ SFnonneg (Prim2SF a).
Proof.
  rewrite FloatAxioms.leb_spec. change (Prim2SF 0) with (S754_zero false).
  unfold SFleb. by destruct (Prim2SF a) as [?|[]| |[] m e].
Qed.

Lemma is_finite_not_nan a : is_finite a = true → is_nan a = false.
Proof. rewrite is_finite_true, is_nan_false. apply SFfinite_not_nan. Qed.

Lemma nonneg_not_nan a : (0 <=? a)%float = true → is_nan a = false.
Proof. rewrite nonneg_true, is_nan_false. apply SFnonneg_not_nan. Qed.

Lemma sub_not_nan a b :
  is_nan a = false → is_finite b = true → is_nan (a - b) = false.
Proof.
  rewrite !is_nan_false, is_finite_true, FloatAxioms.sub_spec. apply SFsub_not_nan.
Qed.

Lemma add_finite_not_nan a b :
  is_finite a = true → is_finite b = true → is_nan (a + b) = false.
Proof.
  rewrite !is_nan_false, !is_finite_true, FloatAxioms.add_spec.
  apply SFadd_finite_not_nan.
Qed.

Lemma half_not_nan a : is_nan a = false → is_nan (a / 2) = false.
Proof.
  rewrite !is_nan_false, FloatAxioms.div_spec.
  change (Prim2SF 2) with (S754_finite false 4503599627370496 (-51)).
  apply SFdiv_pos_not_nan.
Qed.

Lemma hypot_nonneg dx dy :
  is_nan dx = false → is_nan dy = false →
  (0 <=? sqrt (dx * dx + dy * dy))%float = true.
Proof.
  rewrite !is_nan_false, nonneg_true, FloatAxioms.sqrt_spec,
    FloatAxioms.add_spec, !FloatAxioms.mul_spec.
  intros Hx Hy. apply SFsqrt_nonneg, SFadd_nonneg; by apply SFmul_self_nonneg.
Qed.

Lemma ltb_irrefl a : (a <? a)%float = false.
Proof. rewrite FloatAxioms.ltb_spec. apply SFltb_irrefl. Qed.

Lemma ltb_trans a b c :
  (a <? b)%float = true → (b <? c)%float = true → (a <? c)%float = true.
Proof. rewrite !FloatAxioms.ltb_spec. apply SFltb_trans. Qed.

Lemma ltb_leb_trans a b c :
  (a <? b)%float = true → (b <=? c)%float = true → (a <? c)%float = true.
Proof. rewrite !FloatAxioms.ltb_spec, FloatAxioms.leb_spec. apply SFltb_leb_trans. Qed.

Lemma leb_trans a b c :
  (a <=? b)%float = true → (b <=? c)%float = true → (a <=? c)%float = true.
Proof. rewrite !FloatAxioms.leb_spec. apply SFleb_trans. Qed.

Lemma leb_total a b :
  is_nan a = false → is_nan b = false →
  (a <? b)%float = false → (b <=? a)%float = true.
Proof.
  rewrite !is_nan_false, FloatAxioms.ltb_spec, FloatAxioms.leb_spec.
  apply SFleb_total.
Qed.

Lemma leb_refl a : is_nan a = false → (a <=? a)%float = true.
Proof. rewrite is_nan_false, FloatAxioms.leb_spec. apply SFleb_refl. Qed.

Lemma ltb_leb a b : (a <? b)%float = true → (a <=? b)%float = true.
Proof. rewrite FloatAxioms.ltb_spec, FloatAxioms.leb_spec. apply SFltb_leb. Qed.

Lemma leb_not_ltb a b : (a <=? b)%float = true → (b <? a)%float = false.
Proof. rewrite FloatAxioms.ltb_spec, FloatAxioms.leb_spec. apply SFleb_not_ltb. Qed.

Lemma infinity_leb a : (infinity <=? a)%float = true → a = infinity.
Proof.
  rewrite FloatAxioms.leb_spec. intros H. apply Prim2SF_inj.
  change (Prim2SF infinity) with (S754_infinity false) in *.
  unfold SFleb in H. by destruct (Prim2SF a) as [?|[]| |[] m e].
Qed.

Lemma leb_neg_infinity a : (a <=? neg_infinity)%float = true → a = neg_infinity.
Proof.
  rewrite FloatAxioms.leb_spec. intros H. apply Prim2SF_inj.
  change (Prim2SF neg_infinity) with (S754_infinity true) in *.
  unfold SFleb in H. by destruct (Prim2SF a) as [?|[]| |[] m e].
Qed.

Lemma leb_infinity a : is_nan a = false → (a <=? infinity)%float = true.
Proof.
  rewrite is_nan_false, FloatAxioms.leb_spec.
  change (Prim2SF infinity) with (S754_infinity false).
  unfold SFleb. by destruct (Prim2SF a) as [?|[]| |[] m e].
Qed.

Lemma neg_infinity_leb a : is_nan a = false → (neg_infinity <=? a)%float = true.
Proof.
  rewrite is_nan_false, FloatAxioms.leb_spec.
  change (Prim2SF neg_infinity) with (S754_infinity true).
  unfold SFleb. by destruct (Prim2SF a) as [?|[]| |[] m e].
Qed.

End Float64.

(** ** [Math.min] and [Math.max] *)

Section MinMax.

Implicit Types (v lo hi : float) (vs : list float).

Lemma min_from_spec vs : ∀ lo,
  is_nan lo = false → Forall (λ v, is_nan v = false) vs →
  (Math.min_from lo vs = lo ∨ Math.min_from lo vs ∈ vs) ∧
  (Math.min_from lo vs <=? lo)%float = true ∧
  ∀ v, v ∈ vs → (Math.min_from lo vs <=? v)%float = true.
Proof.
  induction vs as [|number rest IH]; intros lo Hlo Hvs; simpl.
  { split_and!; [by left|by apply Float64.leb_refl|]. intros v Hv. by inversion Hv. }
  apply Forall_cons in Hvs as [Hn Hrest]. rewrite Hn.
  set (lo1 := if Leibniz.eqb number neg_zero && Leibniz.eqb lo zero
              then neg_zero else lo).
  assert ((lo1 = lo ∨ lo1 = number) ∧ (lo1 <=? lo)%float = true) as [Hlo1 Hle1].
  { subst lo1.
    destruct (Leibniz.eqb number neg_zero && Leibniz.eqb lo zero) eqn:E.
    - apply andb_true_iff in E as [->%Leibniz.eqb_spec ->%Leibniz.eqb_spec].
      split; [by right|reflexivity].
    - split; [by left|by apply Float64.leb_refl]. }
  assert (is_nan lo1 = false) as Hn1 by (by destruct Hlo1 as [-> | ->]).
  set (lo2 := if (number <? lo1)%float then number else lo1).
  assert ((lo2 = lo1 ∨ lo2 = number) ∧ (lo2 <=? lo1)%float = true ∧
          (lo2 <=? number)%float = true) as (Hlo2 & Hle2 & Hle2').
  { subst lo2. destruct (number <? lo1)%float eqn:E.
    - split_and!; [by right|by apply Float64.ltb_leb|by apply Float64.leb_refl].
    - split_and!; [by left|by apply Float64.leb_refl|by apply Float64.leb_total]. }
  assert (is_nan lo2 = false) as Hn2 by (by destruct Hlo2 as [-> | ->]).
  destruct (IH lo2 Hn2 Hrest) as (Hin & Hle & Hall).
  split_and!.
  - destruct Hin as [Hin|Hin]; [|right; by right].
    rewrite Hin. destruct Hlo2 as [-> | ->]; [|right; left].
    destruct Hlo1 as [-> | ->]; [by left|right; left].
  - eauto using Float64.leb_trans.
  - intros v [->|Hv]%elem_of_cons; [|by apply Hall].
    eauto using Float64.leb_trans.
Qed.

Lemma max_from_spec vs : ∀ hi,
  is_nan hi = false → Forall (λ v, is_nan v = false) vs →
  (Math.max_from hi vs = hi ∨ Math.max_from hi vs ∈ vs) ∧
  (hi <=? Math.max_from hi vs)%float = true ∧
  ∀ v, v ∈ vs → (v <=? Math.max_from hi vs)%float = true.
Proof.
  induction vs as [|number rest IH]; intros hi Hhi Hvs; simpl.
  { split_and!; [by left|by apply Float64.leb_refl|]. intros v Hv. by inversion Hv. }
  apply Forall_cons in Hvs as [Hn Hrest]. rewrite Hn.
  set (hi1 := if Leibniz.eqb number zero && Leibniz.eqb hi neg_zero
              then zero else hi).
  assert ((hi1 = hi ∨ hi1 = number) ∧ (hi <=? hi1)%float = true) as [Hhi1 Hle1].
  { subst hi1.
    destruct (Leibniz.eqb number zero && Leibniz.eqb hi neg_zero) eqn:E.
    - apply andb_true_iff in E as [->%Leibniz.eqb_spec ->%Leibniz.eqb_spec].
      split; [by right|reflexivity].
    - split; [by left|by apply Float64.leb_refl]. }
  assert (is_nan hi1 = false) as Hn1 by (by destruct Hhi1 as [-> | ->]).
  set (hi2 := if (hi1 <? number)%float then number else hi1).
  assert ((hi2 = hi1 ∨ hi2 = number) ∧ (hi1 <=? hi2)%float = true ∧
          (number <=? hi2)%float = true) as (Hhi2 & Hle2 & Hle2').
  { subst hi2. destruct (hi1 <? number)%float eqn:E.
    - split_and!; [by right|by apply Float64.ltb_leb|by apply Float64.leb_refl].
    - split_and!; [by left|by apply Float64.leb_refl|by apply Float64.leb_total]. }
  assert (is_nan hi2 = false) as Hn2 by (by destruct Hhi2 as [-> | ->]).
  destruct (IH hi2 Hn2 Hrest) as (Hin & Hle & Hall).
  split_and!.
  - destruct Hin as [Hin|Hin]; [|right; by right].
    rewrite Hin. destruct Hhi2 as [-> | ->]; [|right; left].
    destruct Hhi1 as [-> | ->]; [by left|right; left].
  - eauto using Float64.leb_trans.
  - intros v [->|Hv]%elem_of_cons; [|by apply Hall].
    eauto using Float64.leb_trans.
Qed.

(** Over numbers, [Math.min] returns a least element of its arguments and
    [Math.max] a greatest one. *)
Lemma min_least vs : vs ≠ [] → Forall (λ v, is_nan v = false) vs → least (Math.min vs) vs.
Proof.
  intros Hne Hvs. unfold Math.min.
  destruct (min_from_spec vs infinity eq_refl Hvs) as ([Hin|Hin] & _ & Hall);
    [|by split].
  split; [|done].
  destruct vs as [|v vs]; [done|].
  assert (v = infinity) as ->; [|rewrite Hin; by left].
  apply Float64.infinity_leb. rewrite <- Hin. apply Hall. by left.
Qed.

Lemma max_greatest vs : vs ≠ [] → Forall (λ v, is_nan v = false) vs → greatest (Math.max vs) vs.
Proof.
  intros Hne Hvs. unfold Math.max.
  destruct (max_from_spec vs neg_infinity eq_refl Hvs) as ([Hin|Hin] & _ & Hall);
    [|by split].
  split; [|done].
  destruct vs as [|v vs]; [done|].
  assert (v = neg_infinity) as ->; [|rewrite Hin; by left].
  apply Float64.leb_neg_infinity. rewrite <- Hin. apply Hall. by left.
Qed.

End MinMax.

(** ** Running the operations

    Each lemma gives the outcome of one operation on a state whose arrays
    hold trucks. *)

Lemma run_bind {A B} (m : M A) (f : A → M B) s a s' :
  m s = Return a s' → (m ≫= f) s = f a s'.
Proof. intros H. unfold mbind, M_bind. by rewrite H. Qed.

Lemma run_lift {A} (r : res A) a s : r = Ok a → lift r s = Return a s.
Proof. by intros ->. Qed.

(** One step through a computation that only reads. *)
Ltac run_pure :=
  erewrite (run_bind (lift _)); [|by apply run_lift]; cbv beta iota.

Lemma load_run s l a : heap s !! l = Some a → load l s = Return a s.
Proof. intros H. unfold load. by rewrite H. Qed.

Lemma with_array_lookup l a s : heap (with_array l a s) !! l = Some a.
Proof. apply lookup_insert_eq. Qed.

Lemma with_array_lookup_ne l l' a s :
  l ≠ l' → heap (with_array l a s) !! l' = heap s !! l'.
Proof. intros H. by apply lookup_insert_ne. Qed.

Lemma with_array_displayedList l a s :
  displayedList (with_array l a s) = displayedList s.
Proof. reflexivity. Qed.

Lemma with_array_twice l a b s :
  with_array l a (with_array l b s) = with_array l a s.
Proof. unfold with_array, set_heap. simpl. by rewrite insert_insert_eq. Qed.

Lemma with_array_comm l l' a b s :
  l ≠ l' →
  with_array l a (with_array l' b s) = with_array l' b (with_array l a s).
Proof.
  intros H. unfold with_array, set_heap. simpl. f_equal. by apply insert_insert_ne.
Qed.

Lemma with_array_same l a s : heap s !! l = Some a → with_array l a s = s.
Proof.
  intros H. destruct s as [h dl]. unfold with_array, set_heap. simpl in *.
  f_equal. by apply insert_id.
Qed.

Lemma push_run s l a v :
  heap s !! l = Some a → push l v s = Return tt (with_array l (a ++ [v]) s).
Proof. intros H. unfold push. by rewrite (run_bind _ _ _ _ _ (load_run _ _ _ H)). Qed.

Lemma unshift_run s l a v :
  heap s !! l = Some a → unshift l v s = Return tt (with_array l (v :: a) s).
Proof. intros H. unfold unshift. by rewrite (run_bind _ _ _ _ _ (load_run _ _ _ H)). Qed.

Lemma array_map_arr {B} (f : value → res B) (g : Truck.t → B) ts :
  (∀ t, f (Some t) = Ok (g t)) → array_map f (arr ts) = Ok (g <$> ts).
Proof.
  intros Hf. induction ts as [|t ts IH]; [done|].
  change (arr (t :: ts)) with (Some t :: arr ts).
  cbn [array_map]. rewrite Hf, IH. reflexivity.
Qed.

Lemma middlePoint_run s l ts :
  heap s !! l = Some (arr ts) → middlePoint l s = Return (center ts) s.
Proof.
  intros H. unfold middlePoint.
  rewrite (run_bind _ _ _ _ _ (load_run _ _ _ H)).
  erewrite run_bind; [|by apply run_lift, (array_map_arr _ Truck.x)].
  erewrite run_bind; [|by apply run_lift, (array_map_arr _ Truck.y)].
  reflexivity.
Qed.

Lemma closest_callback_run target acc t :
  closest_callback target.1 target.2 acc (Some t) = Ok (closest_step target acc t).
Proof.
  unfold closest_callback, closest_step, distance.
  cbn [deref mbind res_bind]. destruct acc as [[i d]|]; [|done].
  by destruct (_ <? _)%float.
Qed.

Lemma array_reduce_arr target ts : ∀ acc,
  array_reduce (closest_callback target.1 target.2) (arr ts) acc
  = Ok (foldl (closest_step target) acc ts).
Proof.
  induction ts as [|t ts IH]; intros acc; [done|].
  change (arr (t :: ts)) with (Some t :: arr ts).
  cbn [array_reduce]. rewrite closest_callback_run. apply IH.
Qed.

Lemma closest_run s l ts target :
  heap s !! l = Some (arr ts) →
  closest l target s = Return (foldl (closest_step target) None ts) s.
Proof.
  intros H. unfold closest. destruct target as [x1 y1].
  rewrite (run_bind _ _ _ _ _ (load_run _ _ _ H)).
  destruct ts as [|t ts]; [done|].
  change (length (arr (t :: ts)) =? 0)%nat with false. cbv iota.
  apply run_lift, (array_reduce_arr (x1, y1)).
Qed.

(** ** The scan of [closest] *)

Section Closest.

Variable target : float * float.

Implicit Types (t : Truck.t) (ts : list Truck.t).

Lemma closest_fold_snoc ts t acc :
  foldl (closest_step target) acc (ts ++ [t])
  = closest_step target (foldl (closest_step target) acc ts) t.
Proof. by rewrite foldl_app. Qed.

(** On a non-empty array the scan ends on the id and distance of one of
    its trucks. *)
Lemma closest_fold_some ts :
  ts ≠ [] →
  ∃ i t, ts !! i = Some t ∧
    foldl (closest_step target) None ts = Some (Truck.id t, distance target t).
Proof.
  induction ts as [|t' ts IH] using rev_ind; [done|]. intros _.
  rewrite closest_fold_snoc.
  destruct (decide (ts = [])) as [->|Hne].
  { exists 0, t'. by split. }
  destruct (IH Hne) as (i & t & Hi & ->). cbn [closest_step].
  destruct (distance target t' <? distance target t)%float.
  - exists (length ts), t'. split; [|done].
    by rewrite lookup_app_r, Nat.sub_diag.
  - exists i, t. split; [|done]. by apply lookup_app_l_Some.
Qed.

(** When every distance is a number, the scan ends on a nearest truck,
    the first one among those at the least distance. *)
Lemma closest_fold_nearest ts :
  ts ≠ [] →
  (∀ t, t ∈ ts → is_nan (distance target t) = false) →
  ∃ i t, nearest_at ts target i t ∧
    foldl (closest_step target) None ts = Some (Truck.id t, distance target t).
Proof.
  induction ts as [|t' ts IH] using rev_ind; [done|]. intros _ Hnum.
  rewrite closest_fold_snoc.
  assert (is_nan (distance target t') = false) as Hn'.
  { apply Hnum, elem_of_app. right. by left. }
  destruct (decide (ts = [])) as [->|Hne].
  { exists 0, t'. split; [|done]. split_and!; [done| |intros; lia].
    intros t'' ->%list_elem_of_singleton. by apply Float64.leb_refl. }
  destruct (IH Hne) as (i & t & (Hi & Hmin & Hfirst) & ->).
  { intros t Ht. apply Hnum, elem_of_app. by left. }
  cbn [closest_step].
  destruct (distance target t' <? distance target t)%float eqn:E.
  - exists (length ts), t'. split; [|done]. split_and!.
    + by rewrite lookup_app_r, Nat.sub_diag.
    + intros t'' [Ht''| ->%list_elem_of_singleton]%elem_of_app.
      * eapply Float64.ltb_leb, Float64.ltb_leb_trans; eauto.
      * by apply Float64.leb_refl.
    + intros j t'' Hj Hl. rewrite lookup_app_l in Hl by done.
      eapply Float64.ltb_leb_trans; [done|]. eapply Hmin, list_elem_of_lookup_2, Hl.
  - exists i, t. split; [|done]. split_and!.
    + by apply lookup_app_l_Some.
    + intros t'' [Ht''| ->%list_elem_of_singleton]%elem_of_app; [by apply Hmin|].
      apply Float64.leb_total; [done| |done].
      eapply Hnum, elem_of_app. left. eapply list_elem_of_lookup_2, Hi.
    + intros j t'' Hj Hl. apply (Hfirst j); [done|].
      rewrite lookup_app_l in Hl; [done|].
      apply lookup_lt_Some in Hi. lia.
Qed.

End Closest.

(** With coordinates of the plane, every distance is a number. *)
Lemma distance_nonneg target t :
  is_nan target.1 = false → is_nan target.2 = false →
  finite_point (Truck.x t, Truck.y t) →
  (0 <=? distance target t)%float = true.
Proof.
  intros H1 H2 [Hx Hy]%andb_true_iff. unfold distance.
  apply Float64.hypot_nonneg; by apply Float64.sub_not_nan.
Qed.

Lemma finite_coords_elem ts t :
  finite_coords ts → t ∈ ts → finite_point (Truck.x t, Truck.y t).
Proof.
  unfold finite_coords. rewrite forallb_forall. intros H Ht.
  by apply H, list_elem_of_In.
Qed.

Lemma finite_coords_delete ts i : finite_coords ts → finite_coords (delete i ts).
Proof.
  unfold finite_coords. rewrite !forallb_forall. intros H t Ht.
  apply H. apply list_elem_of_In in Ht. apply list_elem_of_In.
  by eapply list_elem_of_delete_inv.
Qed.

Lemma unique_ids_delete ts i : unique_ids ts → unique_ids (delete i ts).
Proof.
  unfold unique_ids. intros H. rewrite list_fmap_delete.
  eapply sublist_NoDup; [exact H|]. apply sublist_delete.
Qed.

Lemma finite_point_number p :
  finite_point p → is_nan p.1 = false ∧ is_nan p.2 = false.
Proof.
  intros [H1 H2]%andb_true_iff. split; by apply Float64.is_finite_not_nan.
Qed.

Lemma distance_number target ts t :
  is_nan target.1 = false → is_nan target.2 = false →
  finite_coords ts → t ∈ ts → is_nan (distance target t) = false.
Proof.
  intros H1 H2 Hts Ht.
  eapply Float64.nonneg_not_nan, distance_nonneg; [done..|].
  by eapply finite_coords_elem.
Qed.

(** ** [extract] *)

Section Extract.

Variable id : Z.

Implicit Types (t : Truck.t) (ts : list Truck.t).

Lemma findIndex_from_first ts : ∀ k i t,
  first_with_id ts id i t → findIndex_from (extract_callback id) (arr ts) k = Ok (Some (k + i)).
Proof.
  induction ts as [|t0 ts IH]; intros k i t (Hi & Hid & Hfirst); [done|].
  change (arr (t0 :: ts)) with (Some t0 :: arr ts). cbn [findIndex_from].
  change (extract_callback id (Some t0)) with (Ok (Truck.id t0 =? id)%Z : res bool).
  cbn [mbind res_bind].
  destruct i as [|i].
  - injection Hi as ->. rewrite Hid, Z.eqb_refl, Nat.add_0_r. reflexivity.
  - assert (Truck.id t0 ≠ id) as Hne by (apply (Hfirst 0); [lia|done]).
    apply Z.eqb_neq in Hne. rewrite Hne.
    rewrite (IH (S k) i t); [f_equal; f_equal; lia|].
    split_and!; [done..|].
    intros j t' Hj Hl. apply (Hfirst (S j)); [lia|done].
Qed.

Lemma findIndex_from_absent ts : ∀ k,
  (∀ t, t ∈ ts → Truck.id t ≠ id) → findIndex_from (extract_callback id) (arr ts) k = Ok None.
Proof.
  induction ts as [|t0 ts IH]; intros k Habs; [done|].
  change (arr (t0 :: ts)) with (Some t0 :: arr ts). cbn [findIndex_from].
  change (extract_callback id (Some t0)) with (Ok (Truck.id t0 =? id)%Z : res bool).
  cbn [mbind res_bind].
  assert (Truck.id t0 ≠ id) as Hne by (apply Habs; by left).
  apply Z.eqb_neq in Hne. rewrite Hne. apply IH.
  intros t Ht. apply Habs. by right.
Qed.

(** A truck carrying [id] is in [ts]: there is a first one. *)
Lemma first_with_id_exists ts t :
  t ∈ ts → Truck.id t = id → ∃ i t', first_with_id ts id i t'.
Proof.
  induction ts as [|t0 ts IH]; intros Hin Hid; [by inversion Hin|].
  destruct (decide (Truck.id t0 = id)) as [Heq|Hne].
  { exists 0, t0. split_and!; [done..|intros; lia]. }
  apply elem_of_cons in Hin as [->|Hin]; [done|].
  destruct (IH Hin Hid) as (i & t' & Hi & Hid' & Hfirst).
  exists (S i), t'. split_and!; [done..|].
  intros [|j] t'' Hj Hl; [by injection Hl as <-|].
  apply (Hfirst j); [lia|done].
Qed.

(** With unique ids, the first truck carrying an id is the only one. *)
Lemma first_with_id_unique ts i t j t' :
  unique_ids ts → ts !! i = Some t → Truck.id t = id →
  first_with_id ts id j t' → j = i ∧ t' = t.
Proof.
  intros Hu Hi Hid (Hj & Hid' & _).
  assert (j = i) as ->; [|split; congruence].
  eapply NoDup_lookup; [exact Hu| |].
  - rewrite list_lookup_fmap, Hj. reflexivity.
  - rewrite list_lookup_fmap, Hi. simpl. congruence.
Qed.

Lemma extract_run s l ts i t :
  heap s !! l = Some (arr ts) → first_with_id ts id i t →
  extract l id s = Return (Some t) (with_array l (arr (delete i ts)) s).
Proof.
  intros H Hfirst. unfold extract.
  rewrite (run_bind _ _ _ _ _ (load_run _ _ _ H)).
  erewrite run_bind;
    [|apply run_lift; unfold findIndex; by apply (findIndex_from_first ts 0 i t)].
  cbn [Nat.add]. unfold splice1.
  rewrite (run_bind _ _ _ _ _ (load_run _ _ _ H)).
  destruct Hfirst as (Hi & _ & _).
  unfold arr. rewrite list_lookup_fmap, Hi, list_fmap_delete. reflexivity.
Qed.

Lemma extract_absent_run s l ts :
  heap s !! l = Some (arr ts) → (∀ t, t ∈ ts → Truck.id t ≠ id) →
  extract l id s = Return None s.
Proof.
  intros H Habs. unfold extract.
  rewrite (run_bind _ _ _ _ _ (load_run _ _ _ H)).
  erewrite run_bind;
    [|apply run_lift; unfold findIndex; by apply (findIndex_from_absent ts 0)].
  reflexivity.
Qed.

End Extract.

(** ** One extension of the route *)

Lemma picks_exists ts target : ts ≠ [] → ∃ i t, picks ts target i t.
Proof.
  intros Hne. destruct (closest_fold_some target ts Hne) as (i & t & Hi & Hfold).
  destruct (first_with_id_exists (Truck.id t) ts t) as (k & c & Hk);
    [by eapply list_elem_of_lookup_2|done|].
  exists k, c, (Truck.id t), (distance target t). by split.
Qed.

Lemma picks_lookup ts target i t : picks ts target i t → ts !! i = Some t.
Proof. by intros (? & ? & _ & ? & _). Qed.

(** With unique ids and distances that are numbers, the truck taken is a
    nearest one, first among ties. *)
Lemma picks_nearest ts target i t :
  unique_ids ts →
  (∀ t', t' ∈ ts → is_nan (distance target t') = false) →
  picks ts target i t → nearest_at ts target i t.
Proof.
  intros Hu Hnum (id & d & Hfold & Hfirst).
  destruct (closest_fold_nearest target ts) as (k & c & Hnear & Hfold');
    [by intros ->|done|].
  rewrite Hfold in Hfold'. injection Hfold' as -> ->.
  destruct (first_with_id_unique (Truck.id c) ts k c i t Hu) as [-> ->];
    [by destruct Hnear|done|done|done].
Qed.

Lemma shiftClosestTruck_run s source dest ps d h tl :
  source ≠ dest →
  heap s !! source = Some (arr ps) → ps ≠ [] →
  heap s !! dest = Some (arr d) → head d = Some h → last d = Some tl →
  ∃ hid hd tid td,
    closest source (Truck.x h, Truck.y h) s = Return (Some (hid, hd)) s ∧
    closest source (Truck.x tl, Truck.y tl) s = Return (Some (tid, td)) s ∧
    ∃ i c,
      first_with_id ps (if (hd <? td)%float then hid else tid) i c ∧
      shiftClosestTruck source dest s =
        Return tt
          (with_array dest (arr (if (hd <? td)%float then c :: d else d ++ [c]))
             (with_array source (arr (delete i ps)) s)).
Proof.
  intros Hne Hs Hps Hd Hh Htl.
  destruct (picks_exists ps (Truck.x h, Truck.y h) Hps)
    as (ih & ch & hid & hd & Hfh & Hih).
  destruct (picks_exists ps (Truck.x tl, Truck.y tl) Hps)
    as (it & ct & tid & td & Hft & Hit).
  exists hid, hd, tid, td.
  assert (closest source (Truck.x h, Truck.y h) s = Return (Some (hid, hd)) s) as Hch.
  { by rewrite (closest_run _ _ _ _ Hs), Hfh. }
  assert (closest source (Truck.x tl, Truck.y tl) s = Return (Some (tid, td)) s) as Hct.
  { by rewrite (closest_run _ _ _ _ Hs), Hft. }
  split_and!; [done..|].
  assert (∀ v, heap (with_array source v s) !! dest = Some (arr d)) as Hd'.
  { intros v. by rewrite with_array_lookup_ne. }
  assert (shiftClosestTruck source dest s =
          (if (hd <? td)%float
           then v ← extract source hid; unshift dest v
           else v ← extract source tid; push dest v) s) as ->.
  { unfold shiftClosestTruck.
    rewrite (run_bind _ _ _ _ _ (load_run _ _ _ Hd)).
    assert (default None (arr d !! 0) = Some h) as ->.
    { destruct d; [done|]. by injection Hh as ->. }
    assert (default None (last (arr d)) = Some tl) as ->.
    { unfold arr. by rewrite fmap_last, Htl. }
    cbn [deref]. run_pure.
    rewrite (run_bind _ _ _ _ _ Hch). cbn [destructure].
    do 2 run_pure.
    rewrite (run_bind _ _ _ _ _ Hct).
    run_pure. reflexivity. }
  destruct (hd <? td)%float.
  - exists ih, ch. split; [done|].
    rewrite (run_bind _ _ _ _ _ (extract_run _ _ _ _ _ _ Hs Hih)).
    by apply unshift_run.
  - exists it, ct. split; [done|].
    rewrite (run_bind _ _ _ _ _ (extract_run _ _ _ _ _ _ Hs Hit)).
    rewrite (push_run _ _ _ _ (Hd' _)). unfold arr. by rewrite fmap_app.
Qed.

(** ** The extension loop *)

Lemma while_source_done fuel s source dest :
  heap s !! source = Some [] → while_source fuel source dest s = Return tt s.
Proof.
  intros Hs. destruct fuel; cbn [while_source];
    by rewrite (run_bind _ _ _ _ _ (load_run _ _ _ Hs)).
Qed.

Lemma while_source_again fuel s source dest ps :
  heap s !! source = Some (arr ps) → ps ≠ [] →
  while_source (S fuel) source dest s
  = (shiftClosestTruck source dest;; while_source fuel source dest) s.
Proof.
  intros Hs Hps. cbn [while_source].
  rewrite (run_bind _ _ _ _ _ (load_run _ _ _ Hs)). by destruct ps.
Qed.

Lemma while_source_run fuel : ∀ s source dest ps d,
  source ≠ dest →
  heap s !! source = Some (arr ps) → heap s !! dest = Some (arr d) → d ≠ [] →
  length ps ≤ fuel →
  ∃ pre post,
    pre ++ post ≡ₚ ps ∧
    while_source fuel source dest s =
      Return tt (with_array dest (arr (pre ++ d ++ post)) (with_array source [] s)).
Proof.
  induction fuel as [|fuel IH]; intros s source dest ps d Hne Hs Hd Hd0 Hfuel.
  - destruct ps; [|simpl in Hfuel; lia].
    exists [], []. split; [done|].
    rewrite while_source_done by done. cbn [app]. rewrite app_nil_r.
    rewrite (with_array_same source), (with_array_same dest); done.
  - destruct (decide (ps = [])) as [->|Hps].
    { exists [], []. split; [done|].
      rewrite while_source_done by done. cbn [app]. rewrite app_nil_r.
      rewrite (with_array_same source), (with_array_same dest); done. }
    destruct d as [|h d0] eqn:Ed; [done|]. rewrite <- Ed in *.
    assert (head d = Some h) as Hh by (by rewrite Ed).
    assert (∃ tl, last d = Some tl) as [tl Htl].
    { destruct (last d) eqn:El; [by eexists|]. apply last_None in El. congruence. }
    destruct (shiftClosestTruck_run s source dest ps d h tl)
      as (hid & hd & tid & td & _ & _ & i & c & (Hi & _ & _) & Hstep);
      [done..|].
    set (d1 := if (hd <? td)%float then c :: d else d ++ [c]) in *.
    set (s1 := with_array dest (arr d1) (with_array source (arr (delete i ps)) s)) in *.
    destruct (IH s1 source dest (delete i ps) d1) as (pre & post & Hperm & Hrun).
    + done.
    + subst s1. by rewrite with_array_lookup_ne, with_array_lookup.
    + subst s1. by rewrite with_array_lookup.
    + subst d1. destruct (hd <? td)%float; [done|]. by destruct d.
    + rewrite length_delete by (by eexists).
      assert (0 < length ps) by (destruct ps; [done|simpl; lia]). lia.
    + assert (while_source (S fuel) source dest s = while_source fuel source dest s1) as ->.
      { rewrite (while_source_again _ _ _ _ ps) by done.
        by rewrite (run_bind _ _ _ _ _ Hstep). }
      rewrite Hrun.
      assert (with_array dest (arr (pre ++ d1 ++ post)) (with_array source [] s1)
              = with_array dest (arr (pre ++ d1 ++ post)) (with_array source [] s)) as ->.
      { subst s1.
        rewrite (with_array_comm source dest) by done.
        by rewrite !with_array_twice. }
      apply delete_Permutation in Hi.
      subst d1. destruct (hd <? td)%float.
      * exists (pre ++ [c]), post. split.
        { rewrite Hi, <- Hperm, <- app_assoc. symmetry. apply Permutation_middle. }
        by rewrite <- !app_assoc.
      * exists pre, (c :: post). split.
        { rewrite Hi, <- Hperm. symmetry. apply Permutation_middle. }
        by rewrite <- !app_assoc.
Qed.

(** With too little fuel the loop is cut short. *)
Lemma while_source_short fuel : ∀ s source dest ps d,
  source ≠ dest →
  heap s !! source = Some (arr ps) → heap s !! dest = Some (arr d) → d ≠ [] →
  fuel < length ps →
  while_source fuel source dest s = OutOfFuel.
Proof.
  induction fuel as [|fuel IH]; intros s source dest ps d Hne Hs Hd Hd0 Hfuel.
  - cbn [while_source]. rewrite (run_bind _ _ _ _ _ (load_run _ _ _ Hs)).
    by destruct ps; [simpl in Hfuel; lia|].
  - assert (ps ≠ []) as Hps by (intros ->; simpl in Hfuel; lia).
    destruct d as [|h d0] eqn:Ed; [done|]. rewrite <- Ed in *.
    assert (head d = Some h) as Hh by (by rewrite Ed).
    assert (∃ tl, last d = Some tl) as [tl Htl].
    { destruct (last d) eqn:El; [by eexists|]. apply last_None in El. congruence. }
    destruct (shiftClosestTruck_run s source dest ps d h tl)
      as (hid & hd & tid & td & _ & _ & i & c & (Hi & _ & _) & Hstep);
      [done..|].
    set (d1 := if (hd <? td)%float then c :: d else d ++ [c]) in *.
    rewrite (while_source_again _ _ _ _ ps) by done.
    rewrite (run_bind _ _ _ _ _ Hstep).
    apply (IH _ source dest (delete i ps) d1).
    + done.
    + by rewrite with_array_lookup_ne, with_array_lookup.
    + by rewrite with_array_lookup.
    + subst d1. destruct (hd <? td)%float; [done|]. by destruct d.
    + rewrite length_delete by (by eexists). lia.
Qed.

(** ** [planRoute] *)

Lemma alloc_run s a :
  alloc a s = Return (fresh (dom (heap s))) (with_array (fresh (dom (heap s))) a s).
Proof. reflexivity. Qed.

Lemma fresh_not_allocated s : heap s !! fresh (dom (heap s)) = None.
Proof. apply not_elem_of_dom, is_fresh. Qed.

Lemma get_displayedList_run s l :
  displayedList s = Some l → get_displayedList s = Return l s.
Proof. intros H. unfold get_displayedList. by rewrite H. Qed.

(** The seed: the truck taken for the centre of the bounding box, then
    the truck taken for that first truck among the others; both leave the
    pool, a fresh array, and make the route, another fresh array. *)
Lemma planRoute_seed_run s l dl :
  displayedList s = Some l → heap s !! l = Some (arr dl) → 2 ≤ length dl →
  ∃ source dest i m j sec,
    heap s !! source = None ∧ heap s !! dest = None ∧ source ≠ dest ∧
    picks dl (center dl) i m ∧
    picks (delete i dl) (Truck.x m, Truck.y m) j sec ∧
    planRoute_seed s =
      Return (source, dest)
        (with_array dest (arr [m; sec])
           (with_array source (arr (delete j (delete i dl))) s)).
Proof.
  intros Hdl Hl Hlen.
  set (source := fresh (dom (heap s))).
  pose proof (fresh_not_allocated s) as Hsource. fold source in Hsource.
  assert (source ≠ l) as Hsl by (intros ->; congruence).
  set (s1 := with_array source (arr dl) s).
  destruct (picks_exists dl (center dl)) as (i & m & Hpm);
    [intros ->; simpl in Hlen; lia|].
  pose proof (picks_lookup _ _ _ _ Hpm) as Him.
  set (s2 := with_array source (arr (delete i dl)) s).
  set (dest := fresh (dom (heap s2))).
  pose proof (fresh_not_allocated s2) as Hdest. fold dest in Hdest.
  assert (source ≠ dest) as Hsd.
  { intros E. rewrite <- E in Hdest. subst s2.
    by rewrite with_array_lookup in Hdest. }
  assert (heap s !! dest = None) as Hdest0.
  { subst s2. by rewrite with_array_lookup_ne in Hdest. }
  assert (delete i dl ≠ []) as Hrest.
  { intros E. apply (f_equal length) in E.
    rewrite length_delete in E by (by eexists). simpl in E. lia. }
  destruct (picks_exists (delete i dl) (Truck.x m, Truck.y m) Hrest)
    as (j & sec & Hps).
  exists source, dest, i, m, j, sec. split_and!; [done..|].
  destruct Hpm as (mid & d1 & Hfold1 & Hfirst1).
  destruct Hps as (sid & d2 & Hfold2 & Hfirst2).
  unfold planRoute_seed.
  rewrite (run_bind _ _ _ _ _ (get_displayedList_run _ _ Hdl)).
  assert (slice0 l s = Return source s1) as Hslice.
  { unfold slice0. by rewrite (run_bind _ _ _ _ _ (load_run _ _ _ Hl)). }
  rewrite (run_bind _ _ _ _ _ Hslice).
  rewrite (run_bind _ _ _ _ _ (get_displayedList_run s1 l Hdl)).
  assert (heap s1 !! l = Some (arr dl)) as Hl1.
  { subst s1. by rewrite with_array_lookup_ne. }
  rewrite (run_bind _ _ _ _ _ (middlePoint_run _ _ _ Hl1)).
  destruct (center dl) as [x y] eqn:Ec.
  assert (heap s1 !! source = Some (arr dl)) as Hs1 by apply with_array_lookup.
  rewrite (run_bind _ _ _ _ _ (closest_run _ _ _ (x, y) Hs1)), Hfold1.
  cbn [destructure]. run_pure.
  rewrite (run_bind _ _ _ _ _ (extract_run _ _ _ _ _ _ Hs1 Hfirst1)).
  subst s1. rewrite with_array_twice. fold s2.
  rewrite (run_bind _ _ _ _ _ (alloc_run _ _)). fold dest.
  cbn [deref]. run_pure.
  set (s3 := with_array dest [Some m] s2).
  assert (heap s3 !! source = Some (arr (delete i dl))) as Hs3.
  { subst s3 s2. by rewrite with_array_lookup_ne, with_array_lookup. }
  rewrite (run_bind _ _ _ _ _ (closest_run _ _ _ _ Hs3)), Hfold2.
  cbn [destructure]. run_pure.
  rewrite (run_bind _ _ _ _ _ (extract_run _ _ _ _ _ _ Hs3 Hfirst2)).
  erewrite run_bind; [|apply push_run].
  2: { subst s3. rewrite with_array_lookup_ne by done. apply with_array_lookup. }
  cbn [mret M_ret app arr fmap list_fmap]. f_equal.
  subst s3 s2.
  rewrite (with_array_comm source dest) by done.
  by rewrite !with_array_twice.
Qed.

(** From the seed to the result, with enough fuel for the loop: the route
    grows at both ends around its first two trucks. *)
Lemma planRoute_from_seed fuel list s l dl source dest m sec rest :
  displayedList s = Some l → heap s !! l = Some (arr dl) → 2 ≤ length dl →
  source ≠ dest →
  planRoute_seed s =
    Return (source, dest)
      (with_array dest (arr [m; sec]) (with_array source (arr rest) s)) →
  length rest ≤ fuel →
  ∃ pre post,
    pre ++ post ≡ₚ rest ∧
    planRoute fuel list s =
      Return (Some dest)
        (with_array dest (arr (pre ++ [m; sec] ++ post)) (with_array source [] s)).
Proof.
  intros Hdl Hl Hlen Hsd Hseed Hfuel.
  set (s1 := with_array dest (arr [m; sec]) (with_array source (arr rest) s)) in *.
  destruct (while_source_run fuel s1 source dest rest [m; sec])
    as (pre & post & Hperm & Hloop); [done| | |done|done|].
  { subst s1. by rewrite with_array_lookup_ne, with_array_lookup. }
  { subst s1. by rewrite with_array_lookup. }
  exists pre, post. split; [done|].
  unfold planRoute.
  rewrite (run_bind _ _ _ _ _ (get_displayedList_run _ _ Hdl)).
  rewrite (run_bind _ _ _ _ _ (load_run _ _ _ Hl)).
  assert ((length (arr dl) <? 2) = false) as ->.
  { apply Nat.ltb_ge. unfold arr. by rewrite length_fmap. }
  rewrite (run_bind _ _ _ _ _ Hseed). cbv beta iota.
  rewrite (run_bind _ _ _ _ _ Hloop).
  cbn [mret M_ret]. f_equal. subst s1.
  rewrite (with_array_comm source dest) by done.
  by rewrite !with_array_twice.
Qed.

Lemma length_delete_two {A} (l : list A) i j x y :
  l !! i = Some x → delete i l !! j = Some y →
  length (delete j (delete i l)) = length l - 2.
Proof.
  intros Hi Hj. rewrite !length_delete by (by eexists). lia.
Qed.

(** The whole of [planRoute] on a list of at least two trucks, with
    enough fuel for the loop. *)
Lemma planRoute_run fuel list s l dl :
  displayedList s = Some l → heap s !! l = Some (arr dl) → 2 ≤ length dl →
  length dl - 2 ≤ fuel →
  ∃ source dest i m j sec pre post,
    heap s !! source = None ∧ heap s !! dest = None ∧ source ≠ dest ∧
    picks dl (center dl) i m ∧
    picks (delete i dl) (Truck.x m, Truck.y m) j sec ∧
    pre ++ post ≡ₚ delete j (delete i dl) ∧
    planRoute fuel list s =
      Return (Some dest)
        (with_array dest (arr (pre ++ [m; sec] ++ post)) (with_array source [] s)).
Proof.
  intros Hdl Hl Hlen Hfuel.
  destruct (planRoute_seed_run s l dl Hdl Hl Hlen)
    as (source & dest & i & m & j & sec & Hs & Hd & Hsd & Hpm & Hps & Hseed).
  destruct (planRoute_from_seed fuel list s l dl source dest m sec _
              Hdl Hl Hlen Hsd Hseed) as (pre & post & Hperm & Hrun).
  { by rewrite (length_delete_two dl i j m sec) by (by eapply picks_lookup). }
  by exists source, dest, i, m, j, sec, pre, post.
Qed.

(** With too little fuel [planRoute] is cut short in its loop. *)
Lemma planRoute_short fuel list s l dl :
  displayedList s = Some l → heap s !! l = Some (arr dl) → 2 ≤ length dl →
  fuel < length dl - 2 →
  planRoute fuel list s = OutOfFuel.
Proof.
  intros Hdl Hl Hlen Hfuel.
  destruct (planRoute_seed_run s l dl Hdl Hl Hlen)
    as (source & dest & i & m & j & sec & Hs & Hd & Hsd & Hpm & Hps & Hseed).
  unfold planRoute.
  rewrite (run_bind _ _ _ _ _ (get_displayedList_run _ _ Hdl)).
  rewrite (run_bind _ _ _ _ _ (load_run _ _ _ Hl)).
  assert ((length (arr dl) <? 2) = false) as ->.
  { apply Nat.ltb_ge. unfold arr. by rewrite length_fmap. }
  rewrite (run_bind _ _ _ _ _ Hseed). cbv beta iota.
  unfold mbind at 1. unfold M_bind.
  rewrite (while_source_short fuel _ source dest (delete j (delete i dl)) [m; sec]);
    [done|done| | |done|].
  - by rewrite with_array_lookup_ne, with_array_lookup.
  - by rewrite with_array_lookup.
  - by rewrite (length_delete_two dl i j m sec) by (by eapply picks_lookup).
Qed.

(** Fewer than two trucks: nothing is planned and nothing is returned. *)
Lemma planRoute_few fuel list s l dl :
  displayedList s = Some l → heap s !! l = Some (arr dl) → length dl < 2 →
  planRoute fuel list s = Return None s.
Proof.
  intros Hdl Hl Hlen. unfold planRoute.
  rewrite (run_bind _ _ _ _ _ (get_displayedList_run _ _ Hdl)).
  rewrite (run_bind _ _ _ _ _ (load_run _ _ _ Hl)).
  assert ((length (arr dl) <? 2) = true) as ->; [|done].
  apply Nat.ltb_lt. unfold arr. by rewrite length_fmap.
Qed.

(** ** The centre of the bounding box *)

Lemma finite_coords_xs ts v :
  finite_coords ts → v ∈ Truck.x <$> ts → is_finite v = true.
Proof.
  intros Hts (t & -> & Ht)%list_elem_of_fmap.
  by apply (finite_coords_elem _ _ Hts) in Ht as [? ?]%andb_true_iff.
Qed.

Lemma finite_coords_ys ts v :
  finite_coords ts → v ∈ Truck.y <$> ts → is_finite v = true.
Proof.
  intros Hts (t & -> & Ht)%list_elem_of_fmap.
  by apply (finite_coords_elem _ _ Hts) in Ht as [? ?]%andb_true_iff.
Qed.

Lemma center_extremes ts :
  ts ≠ [] → finite_coords ts →
  least (Math.min (Truck.x <$> ts)) (Truck.x <$> ts) ∧
  greatest (Math.max (Truck.x <$> ts)) (Truck.x <$> ts) ∧
  least (Math.min (Truck.y <$> ts)) (Truck.y <$> ts) ∧
  greatest (Math.max (Truck.y <$> ts)) (Truck.y <$> ts).
Proof.
  intros Hne Hts.
  assert (Truck.x <$> ts ≠ []) as Hxs by (by destruct ts).
  assert (Truck.y <$> ts ≠ []) as Hys by (by destruct ts).
  assert (Forall (λ v, is_nan v = false) (Truck.x <$> ts)) as Hnx.
  { apply Forall_forall. intros v Hv.
    apply Float64.is_finite_not_nan. by apply (finite_coords_xs ts). }
  assert (Forall (λ v, is_nan v = false) (Truck.y <$> ts)) as Hny.
  { apply Forall_forall. intros v Hv.
    apply Float64.is_finite_not_nan. by apply (finite_coords_ys ts). }
  split_and!; by (apply min_least || apply max_greatest).
Qed.

(** Both coordinates of the centre are numbers (they may overflow to an
    infinity, never to NaN). *)
Lemma center_number ts :
  ts ≠ [] → finite_coords ts →
  is_nan (center ts).1 = false ∧ is_nan (center ts).2 = false.
Proof.
  intros Hne Hts.
  destruct (center_extremes ts Hne Hts) as ([Hx1 _] & [Hx2 _] & [Hy1 _] & [Hy2 _]).
  unfold center. cbn [fst snd].
  split; apply Float64.half_not_nan, Float64.add_finite_not_nan;
    first [by apply (finite_coords_xs ts)|by apply (finite_coords_ys ts)].
Qed.

(** ** The samples, run *)

(** The small case of the specification: the centre is (5, 0.5), C comes
    first, A wins the tie with B, and B is nearer the head C than the tail
    A. *)
Example planRoute_small_case :
  returned_route (planRoute 1 0 (Sample.displaying [Sample.A; Sample.B; Sample.C]))
  = Some (arr [Sample.B; Sample.C; Sample.A]).
Proof. by vm_compute. Qed.

(** A and B are at the same distance from (5, 1): whichever comes first in
    the array is returned. *)
Example closest_tie_first :
  closest 0 (5, 1)%float (Sample.displaying [Sample.A; Sample.B])
  = Return (Some (1%Z, sqrt 26)) (Sample.displaying [Sample.A; Sample.B]) ∧
  closest 0 (5, 1)%float (Sample.displaying [Sample.B; Sample.A])
  = Return (Some (2%Z, sqrt 26)) (Sample.displaying [Sample.B; Sample.A]).
Proof. split; by vm_compute. Qed.

(** An id that no truck of the array carries: [extract] returns [null] and
    removes nothing. *)
Example extract_absent :
  extract 0 7 (Sample.displaying [Sample.A; Sample.B])
  = Return None (Sample.displaying [Sample.A; Sample.B]).
Proof. by vm_compute. Qed.

(** While [displayedList] is [undefined], [planRoute] throws on
    [displayedList.length]. *)
Example planRoute_undefined_list :
  planRoute 0 0 (State ∅ None) = Throw TypeError (State ∅ None).
Proof. reflexivity. Qed.

(** * The claims of the specification *)

(** C10. [closest] ("nearest") on an empty array returns [null], for every
    target, and throws nothing. *)
Theorem closest_empty s trucks target :
  heap s !! trucks = Some [] → closest trucks target s = Return None s.
Proof. intros H. by rewrite (closest_run s trucks [] target H). Qed.

Lemma closest_empty_witness :
  closest 0 (5, 1)%float (Sample.displaying []) = Return None (Sample.displaying []).
Proof. apply (closest_empty (Sample.displaying []) 0 (5, 1)%float). reflexivity. Defined.

(** C5. On a non-empty array of trucks with finite coordinates and a finite
    target, [closest] returns the id and the distance of a truck of the
    array such that no truck of the array is closer to the target and every
    truck before it in the array is strictly farther: a nearest truck, the
    first in iteration order among those at the least distance.  The
    distance is the one the code computes, in binary64 arithmetic. *)
Theorem closest_nearest s trucks ts target :
  heap s !! trucks = Some (arr ts) → ts ≠ [] →
  finite_coords ts → finite_point target →
  ∃ i t,
    closest trucks target s = Return (Some (Truck.id t, distance target t)) s ∧
    nearest_at ts target i t.
Proof.
  intros H Hne Hts [H1 H2]%finite_point_number.
  assert (∀ t, t ∈ ts → is_nan (distance target t) = false) as Hnum.
  { intros t Ht. by apply (distance_number target ts). }
  destruct (closest_fold_nearest target ts Hne Hnum) as (i & t & Hnear & Hfold).
  exists i, t. split; [|done].
  by rewrite (closest_run s trucks ts target H), Hfold.
Qed.

Lemma closest_nearest_witness :
  ∃ i t,
    closest 0 (5, 1)%float (Sample.displaying [Sample.A; Sample.B])
    = Return (Some (Truck.id t, distance (5, 1)%float t))
        (Sample.displaying [Sample.A; Sample.B]) ∧
    nearest_at [Sample.A; Sample.B] (5, 1)%float i t.
Proof.
  apply (closest_nearest (Sample.displaying [Sample.A; Sample.B]) 0
           [Sample.A; Sample.B] (5, 1)%float);
    [reflexivity | discriminate | reflexivity | reflexivity].
Defined.

(** C7. On a non-empty array of trucks with finite coordinates,
    [middlePoint] returns [((minX + maxX) / 2, (minY + maxY) / 2)] for the
    least and greatest x and y of the trucks: the centre of the bounding
    box.  For the corners (0,0), (10,0), (0,10), (10,10) it is (5,5); for
    (0,0), (1,1), (10,10) it is (5,5) too, which is not their mean. *)
Theorem middlePoint_bounding_box s trucks ts :
  heap s !! trucks = Some (arr ts) → ts ≠ [] → finite_coords ts →
  (∃ minX maxX minY maxY,
     least minX (Truck.x <$> ts) ∧ greatest maxX (Truck.x <$> ts) ∧
     least minY (Truck.y <$> ts) ∧ greatest maxY (Truck.y <$> ts) ∧
     middlePoint trucks s
     = Return ((minX + maxX) / 2, (minY + maxY) / 2)%float s) ∧
  (Truck.x <$> ts = [0; 10; 0; 10]%float → Truck.y <$> ts = [0; 0; 10; 10]%float →
   middlePoint trucks s = Return (5, 5)%float s) ∧
  (Truck.x <$> ts = [0; 1; 10]%float → Truck.y <$> ts = [0; 1; 10]%float →
   middlePoint trucks s = Return (5, 5)%float s).
Proof.
  intros H Hne Hts. rewrite (middlePoint_run s trucks ts H).
  destruct (center_extremes ts Hne Hts) as (Hx1 & Hx2 & Hy1 & Hy2).
  split_and!.
  - eexists _, _, _, _. split_and!; [done..|]. reflexivity.
  - intros Hx Hy. unfold center. by rewrite Hx, Hy.
  - intros Hx Hy. unfold center. by rewrite Hx, Hy.
Qed.

Lemma middlePoint_bounding_box_witness :
  middlePoint 0 (Sample.displaying Sample.square)
  = Return (5, 5)%float (Sample.displaying Sample.square).
Proof.
  refine (proj1 (proj2 (middlePoint_bounding_box
            (Sample.displaying Sample.square) 0 Sample.square _ _ _)) _ _);
    [reflexivity | discriminate | reflexivity | reflexivity | reflexivity].
Defined.

(** C6. One iteration of the extension loop, on a non-empty pool and a
    route with head [h] and tail [tl].  Let [closest] give the candidate
    [hid] at distance [hd] for the head and [tid] at distance [td] for the
    tail.  If [hd < td], the pool truck carrying [hid] is removed from the
    pool and put in front of the route; otherwise (so whenever [td <= hd],
    ties included) the pool truck carrying [tid] is removed and put at the
    end of the route. *)
Theorem shiftClosestTruck_extends s source dest ps d h tl :
  source ≠ dest →
  heap s !! source = Some (arr ps) → ps ≠ [] →
  heap s !! dest = Some (arr d) → head d = Some h → last d = Some tl →
  ∃ hid hd tid td,
    closest source (Truck.x h, Truck.y h) s = Return (Some (hid, hd)) s ∧
    closest source (Truck.x tl, Truck.y tl) s = Return (Some (tid, td)) s ∧
    ((hd <? td)%float = true →
     ∃ i c, first_with_id ps hid i c ∧
       shiftClosestTruck source dest s =
         Return tt (with_array dest (arr (c :: d))
                      (with_array source (arr (delete i ps)) s))) ∧
    ((hd <? td)%float = false →
     ∃ i c, first_with_id ps tid i c ∧
       shiftClosestTruck source dest s =
         Return tt (with_array dest (arr (d ++ [c]))
                      (with_array source (arr (delete i ps)) s))) ∧
    ((td <=? hd)%float = true → (hd <? td)%float = false).
Proof.
  intros Hne Hs Hps Hd Hh Htl.
  destruct (shiftClosestTruck_run s source dest ps d h tl Hne Hs Hps Hd Hh Htl)
    as (hid & hd & tid & td & Hch & Hct & i & c & Hfirst & Hrun).
  exists hid, hd, tid, td. split_and!; [done..| | |apply Float64.leb_not_ltb].
  - intros E. rewrite E in Hfirst, Hrun. by exists i, c.
  - intros E. rewrite E in Hfirst, Hrun. by exists i, c.
Qed.

Lemma shiftClosestTruck_extends_witness :
  ∃ hid hd tid td,
    closest 0 (0, 0)%float Sample.extending = Return (Some (hid, hd)) Sample.extending ∧
    closest 0 (10, 0)%float Sample.extending = Return (Some (tid, td)) Sample.extending ∧
    ((hd <? td)%float = true →
     ∃ i c, first_with_id [Sample.D; Sample.E] hid i c ∧
       shiftClosestTruck 0 1 Sample.extending =
         Return tt (with_array 1 (arr (c :: [Sample.A; Sample.C; Sample.B]))
                      (with_array 0 (arr (delete i [Sample.D; Sample.E]))
                         Sample.extending))) ∧
    ((hd <? td)%float = false →
     ∃ i c, first_with_id [Sample.D; Sample.E] tid i c ∧
       shiftClosestTruck 0 1 Sample.extending =
         Return tt (with_array 1 (arr ([Sample.A; Sample.C; Sample.B] ++ [c]))
                      (with_array 0 (arr (delete i [Sample.D; Sample.E]))
                         Sample.extending))) ∧
    ((td <=? hd)%float = true → (hd <? td)%float = false).
Proof.
  apply (shiftClosestTruck_extends Sample.extending 0 1
           [Sample.D; Sample.E] [Sample.A; Sample.C; Sample.B] Sample.A Sample.B);
    [lia | reflexivity | discriminate | reflexivity | reflexivity | reflexivity].
Defined.

(** C1, where the code departs from it.  [planRoute] given the array
    [A; B; C] while another array, [D; E], is displayed returns the route
    [D; E]: not a permutation of the collection it was given, none of whose
    points it holds.  The route is made of the global [displayedList]; the
    parameter is never read. *)
Theorem planRoute_route_not_of_argument :
  heap (Sample.two_lists 1) !! 0 = Some (arr [Sample.A; Sample.B; Sample.C]) ∧
  returned_route (planRoute 1 0 (Sample.two_lists 1))
  = Some (arr [Sample.D; Sample.E]) ∧
  ¬ ([Sample.D; Sample.E] ≡ₚ [Sample.A; Sample.B; Sample.C]).
Proof.
  split_and!; [by vm_compute..|].
  intros H%Permutation_length. discriminate.
Qed.

(** C2, where the code departs from it.  [planRoute] given the displayed
    list when it is empty, or holds one truck, throws nothing but returns
    [undefined]: no array, so no empty route and no one-element route.  The
    handler that asked for the route stores that [undefined] in
    [displayedList] and throws a TypeError in [showRoute]. *)
Theorem planRoute_degenerate_undefined :
  (∀ fuel, planRoute fuel 0 (Sample.displaying [])
           = Return None (Sample.displaying [])) ∧
  (∀ fuel, planRoute fuel 0 (Sample.displaying [Sample.A])
           = Return None (Sample.displaying [Sample.A])) ∧
  (¬ ∃ fuel dest s',
       planRoute fuel 0 (Sample.displaying []) = Return (Some dest) s' ∧
       heap s' !! dest = Some []) ∧
  (∀ fuel sfmap, submit_click fuel sfmap (Sample.displaying [])
                 = Throw TypeError (State (heap (Sample.displaying [])) None)).
Proof.
  assert (∀ fuel, planRoute fuel 0 (Sample.displaying [])
                  = Return None (Sample.displaying [])) as Hempty.
  { intros fuel.
    apply (planRoute_few fuel 0 _ 0 []); [reflexivity..|simpl; lia]. }
  split_and!; [done| | |].
  - intros fuel.
    apply (planRoute_few fuel 0 _ 0 [Sample.A]); [reflexivity..|simpl; lia].
  - intros (fuel & dest & s' & Hrun & _). by rewrite Hempty in Hrun.
  - intros fuel sfmap. unfold submit_click.
    change (default 0 (displayedList (Sample.displaying []))) with 0.
    by rewrite (run_bind _ _ _ _ _ (Hempty fuel)).
Qed.

(** C3, where the code departs from it.  The result of [planRoute] does
    not depend on the list it is given, and does depend on the global
    [displayedList]: given the same array [A; B; C] in the same heap, it
    returns a route of A, B, C when that array is displayed and the route
    [D; E] when the other array is. *)
Theorem planRoute_reads_displayedList :
  (∀ fuel list list' s, planRoute fuel list s = planRoute fuel list' s) ∧
  returned_route (planRoute 1 0 (Sample.two_lists 0))
  = Some (arr [Sample.B; Sample.C; Sample.A]) ∧
  returned_route (planRoute 1 0 (Sample.two_lists 1))
  = Some (arr [Sample.D; Sample.E]).
Proof. split_and!; [reflexivity|by vm_compute..]. Qed.

(** C4. When [planRoute] returns, on a displayed list of trucks, every
    array that existed before the call holds what it held, in the same
    order, and [displayedList] is the same reference: the pool and the
    route are arrays of the call's own. *)
Theorem planRoute_frame fuel list s l dl r s' :
  displayedList s = Some l → heap s !! l = Some (arr dl) →
  planRoute fuel list s = Return r s' →
  displayedList s' = displayedList s ∧
  ∀ l' a, heap s !! l' = Some a → heap s' !! l' = Some a.
Proof.
  intros Hdl Hl Hrun.
  destruct (decide (length dl < 2)) as [Hlen|Hlen].
  { rewrite (planRoute_few fuel list s l dl Hdl Hl Hlen) in Hrun.
    by injection Hrun as _ <-. }
  destruct (decide (length dl - 2 ≤ fuel)) as [Hfuel|Hfuel].
  - destruct (planRoute_run fuel list s l dl Hdl Hl ltac:(lia) Hfuel)
      as (source & dest & i & m & j & sec & pre & post &
          Hs & Hd & _ & _ & _ & _ & Hrun').
    rewrite Hrun' in Hrun. injection Hrun as _ <-. split; [done|].
    intros l' a Ha.
    rewrite !with_array_lookup_ne; [done|congruence..].
  - rewrite (planRoute_short fuel list s l dl Hdl Hl) in Hrun; [done|lia..].
Qed.

Lemma planRoute_frame_witness :
  let s := Sample.displaying [Sample.A; Sample.B; Sample.C] in
  let s' := with_array 2 (arr [Sample.B; Sample.C; Sample.A]) (with_array 1 [] s) in
  displayedList s' = displayedList s ∧
  ∀ l' a, heap s !! l' = Some a → heap s' !! l' = Some a.
Proof.
  apply (planRoute_frame 1 0 (Sample.displaying [Sample.A; Sample.B; Sample.C])
           0 [Sample.A; Sample.B; Sample.C] (Some 2));
    [reflexivity | reflexivity | by vm_compute].
Defined.

(** C8, where the code departs from it.  [planRoute] given the array
    [A; B; C] while the array [D; E] is displayed seeds its route with D and
    E, the trucks of the displayed array nearest its centre and nearest D:
    neither is a point of the collection given, and the pool before the
    loop is empty instead of holding the third point given. *)
Theorem planRoute_seed_not_of_argument :
  heap (Sample.two_lists 1) !! 0 = Some (arr [Sample.A; Sample.B; Sample.C]) ∧
  planRoute_seed (Sample.two_lists 1)
  = Return (2, 3)
      (with_array 3 (arr [Sample.D; Sample.E])
         (with_array 2 [] (Sample.two_lists 1))) ∧
  returned_route (planRoute 0 0 (Sample.two_lists 1))
  = Some (arr [Sample.D; Sample.E]) ∧
  (Sample.D ∉ [Sample.A; Sample.B; Sample.C]) ∧
  (Sample.E ∉ [Sample.A; Sample.B; Sample.C]).
Proof.
  split_and!; [by vm_compute..| |];
    intros H; repeat (apply elem_of_cons in H as [H|H]; [discriminate|]);
    by inversion H.
Qed.

(** C9. [planRoute] terminates.  On any displayed list of trucks, with
    fuel for [length - 2] iterations of the loop, it returns, and after a
    loop the pool is empty.  Each iteration of the loop, on a pool that is
    not empty, returns with a pool that is exactly one truck shorter, and
    the loop stops on the empty pool. *)
Theorem planRoute_terminates fuel list s l dl :
  displayedList s = Some l → heap s !! l = Some (arr dl) →
  length dl - 2 ≤ fuel →
  (∃ r s', planRoute fuel list s = Return r s' ∧
     (2 ≤ length dl →
      ∃ source, heap s !! source = None ∧ heap s' !! source = Some [])) ∧
  (∀ s1 source dest ps d,
     source ≠ dest → heap s1 !! source = Some (arr ps) → ps ≠ [] →
     heap s1 !! dest = Some (arr d) → d ≠ [] →
     ∃ s2 ps',
       shiftClosestTruck source dest s1 = Return tt s2 ∧
       heap s2 !! source = Some (arr ps') ∧
       S (length ps') = length ps) ∧
  (∀ n s1 source dest,
     heap s1 !! source = Some [] → while_source n source dest s1 = Return tt s1).
Proof.
  intros Hdl Hl Hfuel. split_and!.
  - destruct (decide (length dl < 2)) as [Hlen|Hlen].
    { exists None, s. split; [by eapply planRoute_few|]. lia. }
    destruct (planRoute_run fuel list s l dl Hdl Hl ltac:(lia) Hfuel)
      as (source & dest & i & m & j & sec & pre & post &
          Hs & Hd & Hsd & _ & _ & _ & Hrun).
    eexists _, _. split; [exact Hrun|]. intros _. exists source. split; [done|].
    by rewrite with_array_lookup_ne, with_array_lookup.
  - intros s1 source dest ps d Hsd Hs Hps Hd Hd0.
    destruct d as [|h d0] eqn:Ed; [done|]. rewrite <- Ed in *.
    assert (∃ tl, last d = Some tl) as [tl Htl].
    { destruct (last d) eqn:El; [by eexists|]. apply last_None in El. congruence. }
    destruct (shiftClosestTruck_run s1 source dest ps d h tl)
      as (hid & hd & tid & td & _ & _ & i & c & (Hi & _ & _) & Hstep);
      [done..|by rewrite Ed|done|].
    eexists _, (delete i ps). split_and!; [exact Hstep| |].
    + by rewrite with_array_lookup_ne, with_array_lookup.
    + rewrite length_delete by (by eexists).
      assert (0 < length ps) by (destruct ps; [done|simpl; lia]). lia.
  - intros n s1 source dest Hs. by apply while_source_done.
Qed.

Lemma planRoute_terminates_witness :
  ∃ r s',
    planRoute 1 0 (Sample.displaying [Sample.A; Sample.B; Sample.C])
    = Return r s'.
Proof.
  destruct (proj1 (planRoute_terminates 1 0
              (Sample.displaying [Sample.A; Sample.B; Sample.C]) 0
              [Sample.A; Sample.B; Sample.C] eq_refl eq_refl
              ltac:(simpl; lia)))
    as (r & s' & Hrun & _).
  by exists r, s'.
Defined.

(** * Further properties of the code *)

(** ** [fetchList] *)

Lemma leb_between_finite a c :
  (0 <=? a)%float = true → (a <=? c)%float = true → is_finite c = true →
  is_finite a = true.
Proof.
  rewrite !Float64.is_finite_true, !FloatAxioms.leb_spec.
  change (Prim2SF 0) with (S754_zero false). unfold SFleb.
  by destruct (Prim2SF a) as [?|[]| |[] ? ?], (Prim2SF c) as [?|[]| |[] ? ?].
Qed.

Lemma fetchList_map_lookup list : ∀ i k t,
  fetchList_map (Z.of_nat i) list !! k = Some t →
  ∃ r, list !! k = Some r ∧ t = placed (i + k) r.
Proof.
  induction list as [|r list IH]; intros i k t Hk; [done|].
  destruct k as [|k]; cbn in Hk.
  - injection Hk as <-. exists r. split; [done|].
    unfold placed. by rewrite Nat.add_0_r.
  - replace (Z.of_nat i + 1)%Z with (Z.of_nat (S i)) in Hk by lia.
    destruct (IH (S i) k t Hk) as (r' & Hr' & ->).
    exists r'. split; [done|]. unfold placed. do 3 f_equal. lia.
Qed.

Lemma no_own_id_cons r raw :
  no_own_id (r :: raw) → Raw.id r = None ∧ no_own_id raw.
Proof.
  unfold no_own_id. cbn [forallb]. intros [Hr Hraw]%andb_true_iff.
  split; [|done]. by destruct (Raw.id r).
Qed.

Lemma no_own_id_lookup raw i r :
  no_own_id raw → raw !! i = Some r → Raw.id r = None.
Proof.
  revert i. induction raw as [|r0 raw IH]; intros i Hraw Hi; [done|].
  apply no_own_id_cons in Hraw as [Hr0 Hraw].
  destruct i as [|i]; [by injection Hi as <-|by eapply IH].
Qed.

Lemma fetchList_map_ids list : ∀ index t,
  no_own_id list → t ∈ fetchList_map index list → (index < Truck.id t)%Z.
Proof.
  induction list as [|r list IH]; intros index t Hown Ht; [by inversion Ht|].
  apply no_own_id_cons in Hown as [Hr Hown].
  cbn in Ht. rewrite Hr in Ht.
  apply elem_of_cons in Ht as [->|Ht]; [simpl; lia|].
  apply IH in Ht; [lia|done].
Qed.

Lemma fetchList_map_unique list : ∀ index,
  no_own_id list → unique_ids (fetchList_map index list).
Proof.
  unfold unique_ids.
  induction list as [|r list IH]; intros index Hown; cbn; [constructor|].
  apply no_own_id_cons in Hown as [Hr Hown]. rewrite Hr.
  apply NoDup_cons. split; [|by apply IH].
  intros (t & Hid & Ht)%list_elem_of_fmap.
  apply fetchList_map_ids in Ht; [|done]. simpl in Hid. lia.
Qed.

Lemma list_filter_sublist {A} (f : A → bool) (l : list A) :
  List.filter f l `sublist_of` l.
Proof.
  induction l as [|a l IH]; cbn; [constructor|].
  destruct (f a); by constructor.
Qed.

Lemma list_filter_elem {A} (f : A → bool) (l : list A) a :
  a ∈ List.filter f l ↔ a ∈ l ∧ f a = true.
Proof. rewrite !list_elem_of_In. apply filter_In. Qed.

Lemma fetchList_unique raw : no_own_id raw → unique_ids (fetchList raw).
Proof.
  intros Hown. unfold unique_ids, fetchList.
  eapply sublist_NoDup; [by apply (fetchList_map_unique raw 0)|].
  apply fmap_sublist, list_filter_sublist.
Qed.

Lemma fetchList_bounds raw t :
  t ∈ fetchList raw →
  (0 <=? Truck.x t)%float = true ∧ (Truck.x t <=? MAP_WIDTH)%float = true ∧
  (0 <=? Truck.y t)%float = true ∧ (Truck.y t <=? MAP_HEIGHT)%float = true.
Proof.
  intros [_ Hf]%list_filter_elem. unfold fetchList_filter in Hf.
  by apply andb_true_iff in Hf as [[[? ?]%andb_true_iff ?]%andb_true_iff ?].
Qed.

Lemma fetchList_finite raw : finite_coords (fetchList raw).
Proof.
  unfold finite_coords. apply forallb_forall. intros t Ht%list_elem_of_In.
  destruct (fetchList_bounds raw t Ht) as (Hx0 & Hx1 & Hy0 & Hy1).
  apply andb_true_iff. split; by eapply leb_between_finite.
Qed.

(** X1. When no entry of the download carries an [id] of its own (the
    spread [...truck] would put it in place of the computed one), the ids
    [fetchList] gives are unique: each truck it returns is made of one
    entry of the download, and its id is the position of that entry plus
    one (ids are not renumbered after the entries outside the map are
    dropped). *)
Theorem fetchList_ids raw :
  no_own_id raw →
  unique_ids (fetchList raw) ∧
  ∀ t, t ∈ fetchList raw →
    ∃ i r, raw !! i = Some r ∧ t = placed i r ∧ Truck.id t = (Z.of_nat i + 1)%Z.
Proof.
  intros Hown. split; [by apply fetchList_unique|].
  - intros t [Ht _]%list_filter_elem.
    apply list_elem_of_lookup in Ht as [k Hk].
    destruct (fetchList_map_lookup raw 0 k t Hk) as (r & Hr & ->).
    exists k, r. split_and!; [done..|].
    unfold placed. cbn [Truck.id]. by rewrite (no_own_id_lookup raw k r).
Qed.

Lemma fetchList_ids_witness :
  unique_ids (fetchList Page.raw) ∧
  ∀ t, t ∈ fetchList Page.raw →
    ∃ i r, Page.raw !! i = Some r ∧ t = placed i r ∧
           Truck.id t = (Z.of_nat i + 1)%Z.
Proof. apply (fetchList_ids Page.raw). reflexivity. Defined.

(** With ids of their own in the download, the ids of the trucks are
    theirs: here 7, 7 and, for the third entry, its position plus one.  The
    second entry is kept for the [x] and [y] it carries, although its
    longitude is not a number. *)
Example fetchList_own_fields :
  fetchList Page.raw_own
  = [Truck.mk 7 0 0; Truck.mk 7 10 20; Truck.mk 3 0 0].
Proof. by vm_compute. Qed.

(** X2. Every truck [fetchList] returns lies on the map, [0 <= x <= 7195]
    and [0 <= y <= 5519], whether its [x] and [y] were computed from the
    longitude and latitude or carried by the entry itself: the filter reads
    them after the spread.  So the coordinates of the trucks returned are
    always finite numbers. *)
Theorem fetchList_on_map raw :
  finite_coords (fetchList raw) ∧
  ∀ t, t ∈ fetchList raw →
    (0 <=? Truck.x t)%float = true ∧ (Truck.x t <=? MAP_WIDTH)%float = true ∧
    (0 <=? Truck.y t)%float = true ∧ (Truck.y t <=? MAP_HEIGHT)%float = true.
Proof. split; [apply fetchList_finite|apply fetchList_bounds]. Qed.

(** X3. When no entry of the download carries an [id] of its own, what
    [fetchList] returns is fit for [planRoute]: displayed, with at least
    two trucks on the map, it is planned without a throw into a permutation
    of itself that holds, side by side, the truck nearest the centre of the
    bounding box and the truck nearest that one. *)
Theorem planRoute_after_fetchList fuel s l raw :
  no_own_id raw →
  displayedList s = Some l → heap s !! l = Some (arr (fetchList raw)) →
  2 ≤ length (fetchList raw) → length (fetchList raw) - 2 ≤ fuel →
  ∃ dest s' i m j sec pre post,
    planRoute fuel l s = Return (Some dest) s' ∧
    heap s' !! dest = Some (arr (pre ++ [m; sec] ++ post)) ∧
    pre ++ [m; sec] ++ post ≡ₚ fetchList raw ∧
    nearest_at (fetchList raw) (center (fetchList raw)) i m ∧
    nearest_at (delete i (fetchList raw)) (Truck.x m, Truck.y m) j sec.
Proof.
  intros Hown Hdl Hl Hlen Hfuel.
  pose proof (fetchList_unique raw Hown) as Hu.
  pose proof (fetchList_finite raw) as Hfin.
  set (dl := fetchList raw) in *.
  assert (dl ≠ []) as Hne by (intros E; rewrite E in Hlen; simpl in Hlen; lia).
  destruct (planRoute_run fuel l s l dl Hdl Hl Hlen Hfuel)
    as (source & dest & i & m & j & sec & pre & post &
        _ & _ & _ & Hpm & Hps & Hperm & Hrun).
  pose proof (picks_lookup _ _ _ _ Hpm) as Hi.
  pose proof (picks_lookup _ _ _ _ Hps) as Hj.
  destruct (center_number dl Hne Hfin) as [Hc1 Hc2].
  assert (finite_point (Truck.x m, Truck.y m)) as Hm.
  { eapply finite_coords_elem; [done|]. by eapply list_elem_of_lookup_2. }
  apply finite_point_number in Hm as [Hm1 Hm2].
  eexists dest, _, i, m, j, sec, pre, post.
  split_and!; [exact Hrun|apply with_array_lookup| | |].
  - apply delete_Permutation in Hi, Hj.
    rewrite Hi, Hj, <- Hperm. symmetry.
    etrans; [|apply Permutation_middle].
    constructor. apply Permutation_middle.
  - apply picks_nearest; [done| |done].
    intros t Ht. by apply (distance_number _ dl).
  - apply picks_nearest; [by apply unique_ids_delete| |done].
    intros t Ht. apply (distance_number _ (delete i dl)); [done..| |done].
    by apply finite_coords_delete.
Qed.

Lemma planRoute_after_fetchList_witness :
  ∃ dest s' i m j sec pre post,
    planRoute 1 0 (Sample.displaying (fetchList Page.raw)) = Return (Some dest) s' ∧
    heap s' !! dest = Some (arr (pre ++ [m; sec] ++ post)) ∧
    pre ++ [m; sec] ++ post ≡ₚ fetchList Page.raw ∧
    nearest_at (fetchList Page.raw) (center (fetchList Page.raw)) i m ∧
    nearest_at (delete i (fetchList Page.raw)) (Truck.x m, Truck.y m) j sec.
Proof.
  apply (planRoute_after_fetchList 1 (Sample.displaying (fetchList Page.raw)) 0 Page.raw);
    [reflexivity | reflexivity | reflexivity | vm_compute; lia | vm_compute; lia].
Defined.

(** ** [extract] *)

(** X4. [extract] for an id that no truck of the array carries returns
    [null] and leaves the array, and the whole state, as it was. *)
Theorem extract_missing s trucks ts id :
  heap s !! trucks = Some (arr ts) → (∀ t, t ∈ ts → Truck.id t ≠ id) →
  extract trucks id s = Return None s.
Proof. intros H Habs. by apply (extract_absent_run id s trucks ts). Qed.

Lemma extract_missing_witness :
  extract 0 7 (Sample.displaying [Sample.A; Sample.B])
  = Return None (Sample.displaying [Sample.A; Sample.B]).
Proof.
  apply (extract_missing (Sample.displaying [Sample.A; Sample.B]) 0
           [Sample.A; Sample.B] 7); [reflexivity|].
  intros t Ht. repeat (apply elem_of_cons in Ht as [->|Ht]; [discriminate|]).
  by inversion Ht.
Defined.

(** X5. [extract] for an id that some truck of the array carries removes
    exactly one truck, the first that carries the id, and returns it: the
    array is one shorter, the trucks left keep their order, and nothing is
    lost even when several trucks carry the id. *)
Theorem extract_removes_one s trucks ts id t0 :
  heap s !! trucks = Some (arr ts) → t0 ∈ ts → Truck.id t0 = id →
  ∃ i t,
    extract trucks id s = Return (Some t) (with_array trucks (arr (delete i ts)) s) ∧
    first_with_id ts id i t ∧
    ts ≡ₚ t :: delete i ts ∧
    S (length (delete i ts)) = length ts ∧
    delete i ts `sublist_of` ts.
Proof.
  intros H Hin Hid.
  destruct (first_with_id_exists id ts t0 Hin Hid) as (i & t & Hfirst).
  exists i, t. pose proof Hfirst as (Hi & _ & _).
  split_and!; [by apply extract_run|done|by apply delete_Permutation| |apply sublist_delete].
  rewrite length_delete by (by eexists).
  apply lookup_lt_Some in Hi. lia.
Qed.

Lemma extract_removes_one_witness :
  ∃ i t,
    extract 0 1 (Sample.displaying Page.twins)
    = Return (Some t) (with_array 0 (arr (delete i Page.twins))
                         (Sample.displaying Page.twins)) ∧
    first_with_id Page.twins 1 i t ∧
    Page.twins ≡ₚ t :: delete i Page.twins ∧
    S (length (delete i Page.twins)) = length Page.twins ∧
    delete i Page.twins `sublist_of` Page.twins.
Proof.
  apply (extract_removes_one (Sample.displaying Page.twins) 0 Page.twins 1
           (Truck.mk 1 10 0)); [reflexivity| |reflexivity].
  right. left.
Defined.

(** ** [shiftClosestTruck] and [closest] at their edges *)

(** X6. [shiftClosestTruck] cannot run on an empty pool or an empty route:
    it throws a TypeError (destructuring the [null] of [closest], or
    reading [x] of the missing head) before it changes anything. *)
Theorem shiftClosestTruck_empty s source dest ps d :
  heap s !! source = Some (arr ps) → heap s !! dest = Some (arr d) →
  ps = [] ∨ d = [] →
  shiftClosestTruck source dest s = Throw TypeError s.
Proof.
  intros Hs Hd Hempty. unfold shiftClosestTruck.
  rewrite (run_bind _ _ _ _ _ (load_run _ _ _ Hd)).
  destruct d as [|h d0]; [reflexivity|].
  destruct Hempty as [->|?]; [|done].
  change (default None (arr (h :: d0) !! 0)) with (Some h).
  cbn [deref]. run_pure.
  by rewrite (run_bind _ _ _ _ _ (closest_run _ _ _ _ Hs)).
Qed.

Lemma shiftClosestTruck_empty_witness :
  shiftClosestTruck 0 1 (with_array 0 [] Sample.extending)
  = Throw TypeError (with_array 0 [] Sample.extending).
Proof.
  apply (shiftClosestTruck_empty (with_array 0 [] Sample.extending) 0 1
           [] [Sample.A; Sample.C; Sample.B]);
    [reflexivity | reflexivity | by left].
Defined.

Lemma is_nan_true a : is_nan a = true → Prim2SF a = S754_nan.
Proof.
  intros H. destruct (Prim2SF a) eqn:E; [| |done|];
    (assert (is_nan a = false) by (apply Float64.is_nan_false; by rewrite E));
    congruence.
Qed.

Lemma ltb_nan_r a b : is_nan b = true → (a <? b)%float = false.
Proof.
  intros H%is_nan_true. rewrite FloatAxioms.ltb_spec, H.
  unfold SFltb. by destruct (Prim2SF a).
Qed.

Lemma ltb_number_l a b : (a <? b)%float = true → is_nan a = false.
Proof.
  rewrite FloatAxioms.ltb_spec, Float64.is_nan_false. intros H E.
  rewrite E in H. discriminate.
Qed.

Lemma closest_fold_nan target ts : ∀ id d,
  is_nan d = true →
  foldl (closest_step target) (Some (id, d)) ts = Some (id, d).
Proof.
  induction ts as [|t ts IH]; intros id d Hd; [done|].
  cbn [foldl closest_step]. rewrite (ltb_nan_r _ d Hd). by apply IH.
Qed.

Lemma closest_fold_number target ts : ∀ id d,
  is_nan d = false →
  ∃ id' d', foldl (closest_step target) (Some (id, d)) ts = Some (id', d') ∧
            is_nan d' = false.
Proof.
  induction ts as [|t ts IH]; intros id d Hd; [by exists id, d|].
  cbn [foldl closest_step].
  destruct (distance target t <? d)%float eqn:E; [|by apply IH].
  apply IH. by eapply ltb_number_l.
Qed.

(** X7. A distance that is NaN (a truck or a target with a NaN coordinate)
    is never less than another: [closest] returns a truck at a NaN distance
    if and only if the first truck of the array is at one, and then it
    returns that first truck, whatever the others. *)
Theorem closest_nan_first s trucks t ts target :
  heap s !! trucks = Some (arr (t :: ts)) →
  ∃ id d,
    closest trucks target s = Return (Some (id, d)) s ∧
    (is_nan (distance target t) = true →
     id = Truck.id t ∧ d = distance target t) ∧
    (is_nan (distance target t) = false → is_nan d = false).
Proof.
  intros H. rewrite (closest_run s trucks (t :: ts) target H).
  cbn [foldl closest_step].
  destruct (is_nan (distance target t)) eqn:E.
  - exists (Truck.id t), (distance target t).
    rewrite (closest_fold_nan target ts _ _ E). by split_and!.
  - destruct (closest_fold_number target ts (Truck.id t) _ E) as (id & d & -> & Hd).
    exists id, d. by split_and!.
Qed.

Lemma closest_nan_first_witness :
  ∃ id d,
    closest 0 (0, 0)%float (Sample.displaying [Page.lost; Sample.A])
    = Return (Some (id, d)) (Sample.displaying [Page.lost; Sample.A]) ∧
    (is_nan (distance (0, 0)%float Page.lost) = true →
     id = Truck.id Page.lost ∧ d = distance (0, 0)%float Page.lost) ∧
    (is_nan (distance (0, 0)%float Page.lost) = false → is_nan d = false).
Proof.
  apply (closest_nan_first (Sample.displaying [Page.lost; Sample.A]) 0
           Page.lost [Sample.A] (0, 0)%float).
  reflexivity.
Defined.

(** ** [middlePoint] at its edges *)

(** X8. [middlePoint] on an empty array does not throw: [Math.min()] is
    +Infinity and [Math.max()] is -Infinity, so it returns (NaN, NaN). *)
Theorem middlePoint_empty s trucks :
  heap s !! trucks = Some [] → middlePoint trucks s = Return (nan, nan) s.
Proof. intros H. by rewrite (middlePoint_run s trucks [] H). Qed.

Lemma middlePoint_empty_witness :
  middlePoint 0 (Sample.displaying []) = Return (nan, nan) (Sample.displaying []).
Proof. apply (middlePoint_empty (Sample.displaying []) 0). reflexivity. Defined.

Lemma min_from_nan vs : ∀ lo v,
  v ∈ vs → is_nan v = true → Math.min_from lo vs = nan.
Proof.
  induction vs as [|number rest IH]; intros lo v Hv Hn; [by inversion Hv|].
  cbn [Math.min_from]. destruct (is_nan number) eqn:E; [done|].
  apply elem_of_cons in Hv as [->|Hv]; [congruence|]. by eapply IH.
Qed.

Lemma max_from_nan vs : ∀ hi v,
  v ∈ vs → is_nan v = true → Math.max_from hi vs = nan.
Proof.
  induction vs as [|number rest IH]; intros hi v Hv Hn; [by inversion Hv|].
  cbn [Math.max_from]. destruct (is_nan number) eqn:E; [done|].
  apply elem_of_cons in Hv as [->|Hv]; [congruence|]. by eapply IH.
Qed.

Lemma nan_add_half b : ((nan + b) / 2)%float = nan.
Proof.
  apply Prim2SF_inj.
  rewrite FloatAxioms.div_spec, FloatAxioms.add_spec.
  change (Prim2SF nan) with S754_nan. reflexivity.
Qed.

(** X9. One truck whose x is NaN makes the x of the centre NaN (and
    likewise for y): [Math.min] and [Math.max] return NaN as soon as one
    argument is NaN. *)
Theorem middlePoint_nan s trucks ts t :
  heap s !! trucks = Some (arr ts) → t ∈ ts →
  (is_nan (Truck.x t) = true →
   ∃ cy, middlePoint trucks s = Return (nan, cy) s) ∧
  (is_nan (Truck.y t) = true →
   ∃ cx, middlePoint trucks s = Return (cx, nan) s).
Proof.
  intros H Ht. rewrite (middlePoint_run s trucks ts H). unfold center.
  split; intros Hn; eexists.
  - rewrite (min_from_nan (Truck.x <$> ts) infinity (Truck.x t));
      [|by apply list_elem_of_fmap_2|done].
    by rewrite nan_add_half.
  - unfold Math.min at 2.
    rewrite (min_from_nan (Truck.y <$> ts) infinity (Truck.y t));
      [|by apply list_elem_of_fmap_2|done].
    by rewrite nan_add_half.
Qed.

Lemma middlePoint_nan_witness :
  (is_nan (Truck.x Page.lost) = true →
   ∃ cy, middlePoint 0 (Sample.displaying [Sample.A; Page.lost])
         = Return (nan, cy) (Sample.displaying [Sample.A; Page.lost])) ∧
  (is_nan (Truck.y Page.lost) = true →
   ∃ cx, middlePoint 0 (Sample.displaying [Sample.A; Page.lost])
         = Return (cx, nan) (Sample.displaying [Sample.A; Page.lost])).
Proof.
  apply (middlePoint_nan (Sample.displaying [Sample.A; Page.lost]) 0
           [Sample.A; Page.lost] Page.lost); [reflexivity|].
  right. left.
Defined.

(** ** [planRoute] without its preconditions *)

(** X10. [planRoute] never drops and never repeats a truck, even when
    several trucks carry the same id, and whatever it is given as its
    argument: on a displayed list of at least two trucks it returns a
    permutation of that list. *)
Theorem planRoute_keeps_every_truck fuel list s l dl :
  displayedList s = Some l → heap s !! l = Some (arr dl) →
  2 ≤ length dl → length dl - 2 ≤ fuel →
  ∃ dest route s',
    planRoute fuel list s = Return (Some dest) s' ∧
    heap s' !! dest = Some (arr route) ∧
    route ≡ₚ dl.
Proof.
  intros Hdl Hl Hlen Hfuel.
  destruct (planRoute_run fuel list s l dl Hdl Hl Hlen Hfuel)
    as (source & dest & i & m & j & sec & pre & post &
        _ & _ & _ & Hpm & Hps & Hperm & Hrun).
  eexists dest, _, _. split_and!; [exact Hrun|apply with_array_lookup|].
  apply picks_lookup, delete_Permutation in Hpm, Hps.
  rewrite Hpm, Hps, <- Hperm. symmetry.
  etrans; [|apply Permutation_middle].
  constructor. apply Permutation_middle.
Qed.

Lemma planRoute_keeps_every_truck_witness :
  ∃ dest route s',
    planRoute 1 7 (Sample.displaying Page.twins) = Return (Some dest) s' ∧
    heap s' !! dest = Some (arr route) ∧
    route ≡ₚ Page.twins.
Proof.
  apply (planRoute_keeps_every_truck 1 7 (Sample.displaying Page.twins) 0 Page.twins);
    [reflexivity | reflexivity | simpl; lia | simpl; lia].
Defined.

(** ** [showRoute] *)

Lemma showRoute_callback_run acc t :
  showRoute_callback acc (Some t) = Ok (showRoute_step acc t).
Proof.
  unfold showRoute_callback, showRoute_step. cbn [deref mbind res_bind].
  destruct acc as [[[lastX lastY]|] sfmap]; cbn [fst snd]; [|done].
  unfold drawRouteLine. by destruct (truthy lastX).
Qed.

Lemma showRoute_reduce ts : ∀ acc,
  array_reduce showRoute_callback (arr ts) acc = Ok (foldl showRoute_step acc ts).
Proof.
  induction ts as [|t ts IH]; intros acc; [done|].
  change (arr (t :: ts)) with (Some t :: arr ts).
  cbn [array_reduce]. rewrite showRoute_callback_run. apply IH.
Qed.

Lemma showRoute_fold_from ts : ∀ a sfmap,
  (foldl showRoute_step (Some (Truck.x a, Truck.y a), sfmap) ts).2
  = rev (List.filter starts_truthy (segments (a :: ts))) ++ sfmap.
Proof.
  induction ts as [|b ts IH]; intros a sfmap; [done|].
  cbn [foldl]. unfold showRoute_step at 2. cbn [fst snd].
  rewrite IH.
  change (segments (a :: b :: ts))
    with (Line (Truck.x a) (Truck.y a) (Truck.x b) (Truck.y b) :: segments (b :: ts)).
  cbn [List.filter starts_truthy].
  destruct (truthy (Truck.x a)); [|done].
  cbn [rev]. by rewrite <- app_assoc.
Qed.

Lemma showRoute_fold ts sfmap :
  (foldl showRoute_step (None, sfmap) ts).2
  = rev (List.filter starts_truthy (segments ts)) ++ sfmap.
Proof.
  destruct ts as [|a ts]; [done|].
  cbn [foldl]. unfold showRoute_step at 2. cbn [fst snd].
  apply showRoute_fold_from.
Qed.

Lemma showRoute_run sfmap s l ts :
  displayedList s = Some l → heap s !! l = Some (arr ts) →
  showRoute sfmap s
  = Return (rev (List.filter starts_truthy (segments ts)) ++ others sfmap) s.
Proof.
  intros Hdl Hl. unfold showRoute.
  rewrite (run_bind _ _ _ _ _ (get_displayedList_run _ _ Hdl)).
  rewrite (run_bind _ _ _ _ _ (load_run _ _ _ Hl)).
  erewrite run_bind; [|apply run_lift, showRoute_reduce].
  fold (others sfmap). rewrite <- showRoute_fold.
  by destruct (foldl showRoute_step (None, others sfmap) ts).
Qed.

Lemma segments_length ts : length (segments ts) = length ts - 1.
Proof.
  induction ts as [|a [|b ts] IH]; [done..|].
  change (segments (a :: b :: ts))
    with (Line (Truck.x a) (Truck.y a) (Truck.x b) (Truck.y b) :: segments (b :: ts)).
  cbn [length] in *. lia.
Qed.

Lemma segments_all_truthy ts :
  (∀ t, t ∈ ts → truthy (Truck.x t) = true) →
  List.filter starts_truthy (segments ts) = segments ts.
Proof.
  induction ts as [|a [|b ts] IH]; intros Hts; [done..|].
  change (segments (a :: b :: ts))
    with (Line (Truck.x a) (Truck.y a) (Truck.x b) (Truck.y b) :: segments (b :: ts)).
  cbn [List.filter starts_truthy]. rewrite (Hts a) by (by left).
  f_equal. apply IH. intros t Ht. apply Hts. by right.
Qed.

Lemma segments_lines ts : List.filter is_line (segments ts) = segments ts.
Proof.
  induction ts as [|a [|b ts] IH]; [done..|].
  change (segments (a :: b :: ts))
    with (Line (Truck.x a) (Truck.y a) (Truck.x b) (Truck.y b) :: segments (b :: ts)).
  cbn [List.filter is_line]. by rewrite IH.
Qed.

Lemma others_no_line sfmap : List.filter is_line (others sfmap) = [].
Proof.
  unfold others. induction sfmap as [|[] sfmap IH]; cbn; done.
Qed.

Lemma others_others sfmap : others (others sfmap) = others sfmap.
Proof.
  unfold others. induction sfmap as [|[] sfmap IH]; cbn; [done..|]. by rewrite IH.
Qed.

Lemma filter_filter_comm {A} (f g : A → bool) (l : list A) :
  List.filter f (List.filter g l) = List.filter g (List.filter f l).
Proof.
  induction l as [|a l IH]; [done|]. cbn.
  destruct (f a) eqn:Ef, (g a) eqn:Eg; cbn; rewrite ?Ef, ?Eg, IH; done.
Qed.

Lemma others_drawn ts sfmap :
  others (rev (List.filter starts_truthy (segments ts)) ++ others sfmap)
  = others sfmap.
Proof.
  unfold others at 1. rewrite List.filter_app. fold (others (others sfmap)).
  rewrite others_others.
  assert (List.filter (λ e, negb (is_line e))
            (rev (List.filter starts_truthy (segments ts))) = []) as ->; [|done].
  rewrite filter_rev, filter_filter_comm.
  assert (List.filter (λ e, negb (is_line e)) (segments ts) = []) as ->; [|done].
  induction ts as [|a [|b ts] IH]; [done..|].
  change (segments (a :: b :: ts))
    with (Line (Truck.x a) (Truck.y a) (Truck.x b) (Truck.y b) :: segments (b :: ts)).
  cbn [List.filter is_line negb]. apply IH.
Qed.

(** X11. [showRoute] removes the lines that were drawn, keeps the other
    elements of the SVG in their order, and puts in front of them the
    segments between consecutive trucks of the displayed list, the last
    segment first, leaving out every segment that starts at a truck whose x
    is [0] or NaN ([if (lastX)] is false there).  When no truck has such an
    x, all [length - 1] segments of the route are drawn. *)
Theorem showRoute_draws sfmap s l ts :
  displayedList s = Some l → heap s !! l = Some (arr ts) →
  showRoute sfmap s
  = Return (rev (List.filter starts_truthy (segments ts)) ++ others sfmap) s ∧
  ((∀ t, t ∈ ts → truthy (Truck.x t) = true) →
   showRoute sfmap s = Return (rev (segments ts) ++ others sfmap) s ∧
   length (segments ts) = length ts - 1).
Proof.
  intros Hdl Hl. rewrite (showRoute_run sfmap s l ts Hdl Hl). split; [done|].
  intros Hts. by rewrite segments_all_truthy, segments_length.
Qed.

Lemma showRoute_draws_witness :
  showRoute Page.drawn (Sample.displaying [Sample.B; Sample.C; Sample.A])
  = Return [Line 5 1 0 0; Line 10 0 5 1; Other 0; Other 1]
      (Sample.displaying [Sample.B; Sample.C; Sample.A]).
Proof.
  refine (proj1 (showRoute_draws Page.drawn
            (Sample.displaying [Sample.B; Sample.C; Sample.A]) 0
            [Sample.B; Sample.C; Sample.A] _ _)); reflexivity.
Defined.

(** X12. A truck on the left edge of the map, at [x = 0], which
    [fetchList] keeps, loses the segment to the truck after it: when a
    truck that is not the last has an x that is [0] (or NaN), [showRoute]
    draws fewer than [length - 1] lines. *)
Theorem showRoute_misses_segment sfmap s l pre a b post :
  displayedList s = Some l →
  heap s !! l = Some (arr (pre ++ a :: b :: post)) →
  truthy (Truck.x a) = false →
  ∃ sfmap',
    showRoute sfmap s = Return sfmap' s ∧
    length (List.filter is_line sfmap') < length (pre ++ a :: b :: post) - 1 ∧
    ∀ id y, (0 <=? y)%float = true → (y <=? MAP_HEIGHT)%float = true →
      fetchList_filter (Truck.mk id 0 y) = true ∧ truthy 0 = false.
Proof.
  intros Hdl Hl Ha. eexists. split; [by eapply showRoute_run|].
  split.
  2: { intros id y Hy0 Hy1. split; [|reflexivity].
       unfold fetchList_filter. cbn [Truck.x Truck.y]. by rewrite Hy0, Hy1. }
  rewrite List.filter_app, others_no_line, app_nil_r.
  rewrite filter_rev, length_rev, filter_filter_comm, segments_lines.
  rewrite <- segments_length.
  clear Hl. induction pre as [|p pre IH].
  - cbn [app].
    change (segments (a :: b :: post))
      with (Line (Truck.x a) (Truck.y a) (Truck.x b) (Truck.y b) :: segments (b :: post)).
    cbn [List.filter starts_truthy]. rewrite Ha. cbn [length].
    pose proof (filter_length_le starts_truthy (segments (b :: post))). lia.
  - destruct pre as [|p' pre].
    + cbn [app] in *.
      change (segments (p :: a :: b :: post))
        with (Line (Truck.x p) (Truck.y p) (Truck.x a) (Truck.y a)
              :: segments (a :: b :: post)).
      cbn [List.filter]. destruct (starts_truthy _); cbn [length]; lia.
    + change (segments ((p :: p' :: pre) ++ a :: b :: post))
        with (Line (Truck.x p) (Truck.y p) (Truck.x p') (Truck.y p')
              :: segments ((p' :: pre) ++ a :: b :: post)).
      cbn [List.filter]. destruct (starts_truthy _); cbn [length]; lia.
Qed.

Lemma showRoute_misses_segment_witness :
  ∃ sfmap',
    showRoute Page.drawn (Sample.displaying Page.edge_route)
    = Return sfmap' (Sample.displaying Page.edge_route) ∧
    length (List.filter is_line sfmap') < length Page.edge_route - 1 ∧
    ∀ id y, (0 <=? y)%float = true → (y <=? MAP_HEIGHT)%float = true →
      fetchList_filter (Truck.mk id 0 y) = true ∧ truthy 0 = false.
Proof.
  apply (showRoute_misses_segment Page.drawn (Sample.displaying Page.edge_route) 0
           [Truck.mk 1 10 10] (Truck.mk 2 0 20) (Truck.mk 3 30 30) []);
    reflexivity.
Defined.

(** X13. Showing the route again changes nothing: the lines of the last
    display are removed before the new ones are drawn, so lines never pile
    up and the other elements stay. *)
Theorem showRoute_again sfmap s l ts sfmap' :
  displayedList s = Some l → heap s !! l = Some (arr ts) →
  showRoute sfmap s = Return sfmap' s →
  showRoute sfmap' s = Return sfmap' s.
Proof.
  intros Hdl Hl. rewrite !(showRoute_run _ s l ts Hdl Hl).
  intros [= <-]. by rewrite others_drawn.
Qed.

Lemma showRoute_again_witness :
  showRoute [Line 5 1 0 0; Line 10 0 5 1; Other 0; Other 1]
    (Sample.displaying [Sample.B; Sample.C; Sample.A])
  = Return [Line 5 1 0 0; Line 10 0 5 1; Other 0; Other 1]
      (Sample.displaying [Sample.B; Sample.C; Sample.A]).
Proof.
  apply (showRoute_again Page.drawn
           (Sample.displaying [Sample.B; Sample.C; Sample.A]) 0
           [Sample.B; Sample.C; Sample.A]); reflexivity.
Defined.

(** ** The handlers that plan a route *)

Lemma showRoute_undefined sfmap s :
  displayedList s = None → showRoute sfmap s = Throw TypeError s.
Proof. intros H. unfold showRoute, mbind, M_bind, get_displayedList. by rewrite H. Qed.

Lemma planRoute_undefined fuel list s :
  displayedList s = None → planRoute fuel list s = Throw TypeError s.
Proof. intros H. unfold planRoute, mbind, M_bind, get_displayedList. by rewrite H. Qed.

(** X14. Asking for a route while fewer than two trucks are displayed
    breaks the page: [planRoute] returns [undefined], the handler stores it
    in [displayedList], and [showRoute] throws a TypeError on
    [displayedList.forEach].  From then on every further request throws as
    well, in [planRoute] on [displayedList.length], and changes nothing. *)
Theorem submit_click_few fuel sfmap s l dl :
  displayedList s = Some l → heap s !! l = Some (arr dl) → length dl < 2 →
  submit_click fuel sfmap s = Throw TypeError (State (heap s) None) ∧
  ∀ fuel' sfmap',
    submit_click fuel' sfmap' (State (heap s) None)
    = Throw TypeError (State (heap s) None).
Proof.
  intros Hdl Hl Hlen. split.
  - unfold submit_click.
    rewrite (run_bind _ _ _ _ _ (planRoute_few fuel _ s l dl Hdl Hl Hlen)).
    unfold mbind, M_bind, set_displayedList. by rewrite showRoute_undefined.
  - intros fuel' sfmap'. unfold submit_click, mbind, M_bind.
    by rewrite planRoute_undefined.
Qed.

Lemma submit_click_few_witness :
  submit_click 0 Page.drawn (Sample.displaying [Sample.A])
  = Throw TypeError (State (heap (Sample.displaying [Sample.A])) None) ∧
  ∀ fuel' sfmap',
    submit_click fuel' sfmap' (State (heap (Sample.displaying [Sample.A])) None)
    = Throw TypeError (State (heap (Sample.displaying [Sample.A])) None).
Proof.
  apply (submit_click_few 0 Page.drawn (Sample.displaying [Sample.A]) 0 [Sample.A]);
    [reflexivity | reflexivity | simpl; lia].
Defined.

(** X15. Asking for a route while at least two trucks are displayed:
    [displayedList] becomes a new array, a permutation of the list that was
    displayed, the arrays that existed (the full list among them) are as
    they were, and the SVG shows the segments of the new route in front of
    its other elements.  The page is again in a state where a route can be
    asked for. *)
Theorem submit_click_route fuel sfmap s l dl :
  displayedList s = Some l → heap s !! l = Some (arr dl) →
  2 ≤ length dl → length dl - 2 ≤ fuel →
  ∃ dest route s',
    submit_click fuel sfmap s
    = Return (rev (List.filter starts_truthy (segments route)) ++ others sfmap) s' ∧
    displayedList s' = Some dest ∧
    heap s !! dest = None ∧
    heap s' !! dest = Some (arr route) ∧
    route ≡ₚ dl ∧
    ∀ l' a, heap s !! l' = Some a → heap s' !! l' = Some a.
Proof.
  intros Hdl Hl Hlen Hfuel.
  destruct (planRoute_run fuel (default 0 (displayedList s)) s l dl Hdl Hl Hlen Hfuel)
    as (source & dest & i & m & j & sec & pre & post &
        Hs & Hd & Hsd & Hpm & Hps & Hperm & Hrun).
  set (route := pre ++ [m; sec] ++ post) in *.
  set (s1 := with_array dest (arr route) (with_array source [] s)) in *.
  set (s' := State (heap s1) (Some dest)).
  assert (heap s' !! dest = Some (arr route)) as Hroute.
  { subst s' s1. apply with_array_lookup. }
  exists dest, route, s'. split_and!; [|done|done|done| |].
  - unfold submit_click. rewrite (run_bind _ _ _ _ _ Hrun).
    unfold mbind at 1. unfold M_bind, set_displayedList. fold s'.
    by apply (showRoute_run sfmap s' dest route).
  - subst route. apply picks_lookup, delete_Permutation in Hpm, Hps.
    rewrite Hpm, Hps, <- Hperm. symmetry.
    etrans; [|apply Permutation_middle].
    constructor. apply Permutation_middle.
  - intros l' a Ha. subst s' s1. cbn [heap].
    rewrite !with_array_lookup_ne; [done|congruence..].
Qed.

Lemma submit_click_route_witness :
  ∃ dest route s',
    submit_click 1 Page.drawn (Sample.displaying [Sample.A; Sample.B; Sample.C])
    = Return (rev (List.filter starts_truthy (segments route)) ++ others Page.drawn) s' ∧
    displayedList s' = Some dest ∧
    heap (Sample.displaying [Sample.A; Sample.B; Sample.C]) !! dest = None ∧
    heap s' !! dest = Some (arr route) ∧
    route ≡ₚ [Sample.A; Sample.B; Sample.C] ∧
    ∀ l' a, heap (Sample.displaying [Sample.A; Sample.B; Sample.C]) !! l' = Some a →
            heap s' !! l' = Some a.
Proof.
  apply (submit_click_route 1 Page.drawn
           (Sample.displaying [Sample.A; Sample.B; Sample.C]) 0
           [Sample.A; Sample.B; Sample.C]);
    [reflexivity | reflexivity | simpl; lia | simpl; lia].
Defined.

(** ** [filterTrucks] *)

Section FilterTrucksFacts.

Variable toLowerCase : jsstring → jsstring.

Lemma elem_of_rev_inv {A} (a : A) (l : list A) : a ∈ rev l → a ∈ l.
Proof. rewrite !list_elem_of_In. apply in_rev. Qed.

Lemma replace_runs_chars s : ∀ in_run c,
  c ∈ replace_runs in_run s → alnum c = true ∨ c = 32%N.
Proof.
  induction s as [|d s IH]; intros in_run c Hc; [by inversion Hc|].
  cbn [replace_runs] in Hc. destruct (alnum d) eqn:Ed.
  - apply elem_of_cons in Hc as [->|Hc]; [by left|by eapply IH].
  - destruct in_run; [by eapply IH|].
    apply elem_of_cons in Hc as [->|Hc]; [by right|by eapply IH].
Qed.

Lemma split_spaces_chars s : ∀ token tok c,
  (∀ d, d ∈ token → alnum d = true) →
  (∀ d, d ∈ s → alnum d = true ∨ d = 32%N) →
  tok ∈ split_spaces token s → c ∈ tok → alnum c = true.
Proof.
  induction s as [|d s IH]; intros token tok c Htoken Hs Htok Hc.
  - cbn [split_spaces] in Htok. apply list_elem_of_singleton in Htok as ->.
    apply Htoken. by apply elem_of_rev_inv.
  - cbn [split_spaces] in Htok. destruct (d =? 32)%N eqn:Ed.
    + apply elem_of_cons in Htok as [->|Htok].
      * apply Htoken. by apply elem_of_rev_inv.
      * eapply (IH []); [by inversion 1| |done..].
        intros d' Hd'. apply Hs. by right.
    + eapply (IH (d :: token)); [| |done..].
      * intros d' [->|Hd']%elem_of_cons; [|by apply Htoken].
        destruct (Hs d) as [?| ->]; [by left|done|discriminate].
      * intros d' Hd'. apply Hs. by right.
Qed.

Lemma split_spaces_not_nil s : ∀ token, split_spaces token s ≠ [].
Proof.
  induction s as [|d s IH]; intros token; cbn [split_spaces]; [done|].
  destruct (d =? 32)%N; [done|apply IH].
Qed.

(** X16. Whatever is typed, [filterTrucks] searches for at least one
    token, and its tokens hold only the characters [a-z] and [0-9]: spaces,
    punctuation and any other character only separate tokens (and leave
    empty tokens behind). *)
Theorem searches_alnum searchString :
  searches toLowerCase searchString ≠ [] ∧
  ∀ tok c, tok ∈ searches toLowerCase searchString → c ∈ tok → alnum c = true.
Proof.
  split; [apply split_spaces_not_nil|].
  intros tok c Htok Hc. unfold searches in Htok.
  eapply (split_spaces_chars _ []); [by inversion 1| |done..].
  intros d Hd. by eapply replace_runs_chars.
Qed.

Lemma starts_with_nil s : starts_with s [] = true.
Proof. by destruct s. Qed.

Lemma includes_nil s : includes s [] = true.
Proof. destruct s; cbn [includes]; by rewrite starts_with_nil. Qed.

Lemma replace_runs_in_blank s :
  (∀ c, c ∈ s → alnum c = false) → replace_runs true s = [].
Proof.
  induction s as [|d s IH]; intros Hs; [done|].
  cbn [replace_runs]. rewrite (Hs d) by (by left).
  apply IH. intros c Hc. apply Hs. by right.
Qed.

Lemma replace_runs_blank s :
  (∀ c, c ∈ s → alnum c = false) →
  replace_runs false s = [] ∨ replace_runs false s = [32%N].
Proof.
  destruct s as [|d s]; intros Hs; [by left|]. right.
  cbn [replace_runs]. rewrite (Hs d) by (by left).
  rewrite replace_runs_in_blank; [done|].
  intros c Hc. apply Hs. by right.
Qed.

Lemma list_filter_all {A} (f : A → bool) (l : list A) :
  (∀ a, a ∈ l → f a = true) → List.filter f l = l.
Proof.
  induction l as [|a l IH]; intros H; [done|].
  cbn. rewrite (H a) by (by left). f_equal. apply IH.
  intros b Hb. apply H. by right.
Qed.

(** X17. A search without any letter or digit (the empty search, or only
    spaces and punctuation, once in lower case) filters nothing out:
    [filterTrucks] returns the whole of [fullList], in its order. *)
Theorem filterTrucks_blank fullList searchString :
  (∀ c, c ∈ toLowerCase searchString → alnum c = false) →
  filterTrucks toLowerCase fullList searchString = fullList.
Proof.
  intros Hblank. unfold filterTrucks. apply list_filter_all. intros truck _.
  unfold searches.
  destruct (replace_runs_blank (toLowerCase searchString) Hblank) as [-> | ->];
    cbn; by rewrite ?includes_nil.
Qed.

Lemma list_filter_narrower {A} (f g : A → bool) (l : list A) :
  (∀ a, f a = true → g a = true) →
  List.filter f l `sublist_of` List.filter g l.
Proof.
  intros Hfg. induction l as [|a l IH]; cbn; [constructor|].
  destruct (f a) eqn:Ef.
  - rewrite (Hfg a Ef). by constructor.
  - destruct (g a); [by constructor|done].
Qed.

(** X18. Searching for more can only show less: when every token of one
    search is a token of another, what [filterTrucks] returns for the
    other is a sublist of what it returns for the one, which is a sublist
    of [fullList]; the order of the trucks is that of [fullList]. *)
Theorem filterTrucks_narrows fullList search1 search2 :
  searches toLowerCase search1 ⊆ searches toLowerCase search2 →
  filterTrucks toLowerCase fullList search2
    `sublist_of` filterTrucks toLowerCase fullList search1 ∧
  filterTrucks toLowerCase fullList search1 `sublist_of` fullList.
Proof.
  intros Hsub. split; [|apply list_filter_sublist].
  unfold filterTrucks. apply list_filter_narrower. intros truck H.
  rewrite forallb_forall in *. intros tok Htok%list_elem_of_In.
  apply H, list_elem_of_In, Hsub, Htok.
Qed.

End FilterTrucksFacts.

Lemma filterTrucks_blank_witness :
  filterTrucks ascii_toLowerCase [Menu.tacos; Menu.noodles] Menu.blank
  = [Menu.tacos; Menu.noodles].
Proof.
  apply (filterTrucks_blank ascii_toLowerCase [Menu.tacos; Menu.noodles] Menu.blank).
  intros c Hc. vm_compute in Hc.
  repeat (apply elem_of_cons in Hc as [->|Hc]; [reflexivity|]).
  by inversion Hc.
Defined.

Lemma filterTrucks_narrows_witness :
  filterTrucks ascii_toLowerCase [Menu.tacos; Menu.noodles] Menu.query
    `sublist_of`
    filterTrucks ascii_toLowerCase [Menu.tacos; Menu.noodles] Menu.short_query ∧
  filterTrucks ascii_toLowerCase [Menu.tacos; Menu.noodles] Menu.short_query
    `sublist_of` [Menu.tacos; Menu.noodles].
Proof.
  apply (filterTrucks_narrows ascii_toLowerCase [Menu.tacos; Menu.noodles]
           Menu.short_query Menu.query).
  by apply (bool_decide_unpack _).
Defined.

(** The samples of the page, run. *)
Example fetchList_sample :
  Truck.id <$> fetchList Page.raw = [1; 4; 5]%Z ∧
  fetchList [Raw.mk LEFT_LNG TOP_LAT None None None] = [Truck.mk 1 0 0].
Proof. split; by vm_compute. Qed.

Example filterTrucks_sample :
  searches ascii_toLowerCase Menu.query = [Menu.short_query; Menu.main_word; []] ∧
  filterTrucks ascii_toLowerCase [Menu.tacos; Menu.noodles] Menu.query
  = [Menu.tacos].
Proof. split; by vm_compute. Qed.

(** ** What [closest] and [shiftClosestTruck] keep *)

(** X19. On a non-empty array of trucks, whatever their coordinates (NaN
    and infinities included), [closest] returns the id of a truck of the
    array together with that truck's distance, and [extract] on the same
    array then finds that id: it never returns [null] there. *)
Theorem closest_then_extract s trucks ts target :
  heap s !! trucks = Some (arr ts) → ts ≠ [] →
  ∃ k c i t,
    ts !! k = Some c ∧
    closest trucks target s
    = Return (Some (Truck.id c, distance target c)) s ∧
    first_with_id ts (Truck.id c) i t ∧ i ≤ k ∧
    extract trucks (Truck.id c) s
    = Return (Some t) (with_array trucks (arr (delete i ts)) s).
Proof.
  intros H Hne.
  destruct (closest_fold_some target ts Hne) as (k & c & Hk & Hfold).
  destruct (first_with_id_exists (Truck.id c) ts c) as (i & t & Hfirst);
    [by eapply list_elem_of_lookup_2|done|].
  exists k, c, i, t. split_and!; [done| |done| |by apply extract_run].
  - by rewrite (closest_run s trucks ts target H), Hfold.
  - destruct Hfirst as (_ & _ & Hmin).
    destruct (decide (i ≤ k)) as [|Hik]; [done|].
    exfalso. by apply (Hmin k c); [lia|..].
Qed.

Lemma closest_then_extract_witness :
  ∃ k c i t,
    [Page.lost; Sample.A] !! k = Some c ∧
    closest 0 (0, 0)%float (Sample.displaying [Page.lost; Sample.A])
    = Return (Some (Truck.id c, distance (0, 0)%float c))
        (Sample.displaying [Page.lost; Sample.A]) ∧
    first_with_id [Page.lost; Sample.A] (Truck.id c) i t ∧ i ≤ k ∧
    extract 0 (Truck.id c) (Sample.displaying [Page.lost; Sample.A])
    = Return (Some t) (with_array 0 (arr (delete i [Page.lost; Sample.A]))
                         (Sample.displaying [Page.lost; Sample.A])).
Proof.
  apply (closest_then_extract (Sample.displaying [Page.lost; Sample.A]) 0
           [Page.lost; Sample.A] (0, 0)%float); [reflexivity | discriminate].
Defined.

(** X20. One iteration of the extension loop moves one truck and nothing
    else: the route gains a truck at one end, the pool loses that truck,
    the trucks of route and pool together are the same as before, and no
    other array and no global changes. *)
Theorem shiftClosestTruck_conserves s source dest ps d :
  source ≠ dest →
  heap s !! source = Some (arr ps) → ps ≠ [] →
  heap s !! dest = Some (arr d) → d ≠ [] →
  ∃ s' i c d',
    shiftClosestTruck source dest s = Return tt s' ∧
    ps !! i = Some c ∧
    (d' = c :: d ∨ d' = d ++ [c]) ∧
    heap s' !! source = Some (arr (delete i ps)) ∧
    heap s' !! dest = Some (arr d') ∧
    d' ++ delete i ps ≡ₚ d ++ ps ∧
    displayedList s' = displayedList s ∧
    ∀ l, l ≠ source → l ≠ dest → heap s' !! l = heap s !! l.
Proof.
  intros Hsd Hs Hps Hd Hd0.
  destruct d as [|h d0] eqn:Ed; [done|]. rewrite <- Ed in *.
  assert (∃ tl, last d = Some tl) as [tl Htl].
  { destruct (last d) eqn:El; [by eexists|]. apply last_None in El. congruence. }
  destruct (shiftClosestTruck_run s source dest ps d h tl)
    as (hid & hd & tid & td & _ & _ & i & c & (Hi & _ & _) & Hstep);
    [done..|by rewrite Ed|done|].
  set (d' := if (hd <? td)%float then c :: d else d ++ [c]) in *.
  eexists _, i, c, d'. split_and!; [exact Hstep|done| | | | |done|].
  - subst d'. destruct (hd <? td)%float; [by left|by right].
  - by rewrite with_array_lookup_ne, with_array_lookup.
  - by rewrite with_array_lookup.
  - apply delete_Permutation in Hi. rewrite Hi at 2.
    subst d'. destruct (hd <? td)%float.
    + cbn [app]. by rewrite <- Permutation_middle.
    + by rewrite <- app_assoc.
  - intros l Hl1 Hl2. by rewrite !with_array_lookup_ne.
Qed.

Lemma shiftClosestTruck_conserves_witness :
  ∃ s' i c d',
    shiftClosestTruck 0 1 Sample.extending = Return tt s' ∧
    [Sample.D; Sample.E] !! i = Some c ∧
    (d' = c :: [Sample.A; Sample.C; Sample.B] ∨
     d' = [Sample.A; Sample.C; Sample.B] ++ [c]) ∧
    heap s' !! 0 = Some (arr (delete i [Sample.D; Sample.E])) ∧
    heap s' !! 1 = Some (arr d') ∧
    d' ++ delete i [Sample.D; Sample.E]
      ≡ₚ [Sample.A; Sample.C; Sample.B] ++ [Sample.D; Sample.E] ∧
    displayedList s' = displayedList Sample.extending ∧
    ∀ l, l ≠ 0 → l ≠ 1 → heap s' !! l = heap Sample.extending !! l.
Proof.
  apply (shiftClosestTruck_conserves Sample.extending 0 1
           [Sample.D; Sample.E] [Sample.A; Sample.C; Sample.B]);
    [lia | reflexivity | discriminate | reflexivity | discriminate].
Defined.

(** ** The seed of the route *)

(** X21. Whatever [planRoute] is given, on a displayed list of at least
    two trucks with unique ids and finite coordinates the first truck put
    in the route is the truck of the displayed list nearest the centre
    [middlePoint] returns, and the second is the truck nearest the first
    among the others, ties going to the truck that comes first.  When the
    loop begins the route is these two and the pool is the displayed list
    without them; in the returned route they are still side by side, in
    this order. *)
Theorem planRoute_seed_nearest_displayed fuel list s l dl :
  displayedList s = Some l → heap s !! l = Some (arr dl) →
  unique_ids dl → finite_coords dl → 2 ≤ length dl → length dl - 2 ≤ fuel →
  ∃ source dest i m j sec,
    middlePoint l s = Return (center dl) s ∧
    nearest_at dl (center dl) i m ∧
    nearest_at (delete i dl) (Truck.x m, Truck.y m) j sec ∧
    planRoute_seed s =
      Return (source, dest)
        (with_array dest (arr [m; sec])
           (with_array source (arr (delete j (delete i dl))) s)) ∧
    ∃ pre post,
      returned_route (planRoute fuel list s) = Some (arr (pre ++ [m; sec] ++ post)).
Proof.
  intros Hdl Hl Hu Hfin Hlen Hfuel.
  assert (dl ≠ []) as Hne by (intros ->; simpl in Hlen; lia).
  destruct (planRoute_seed_run s l dl Hdl Hl Hlen)
    as (source & dest & i & m & j & sec & Hs & Hd & Hsd & Hpm & Hps & Hseed).
  pose proof (picks_lookup _ _ _ _ Hpm) as Hi.
  pose proof (picks_lookup _ _ _ _ Hps) as Hj.
  destruct (center_number dl Hne Hfin) as [Hc1 Hc2].
  assert (nearest_at dl (center dl) i m) as Hnm.
  { apply picks_nearest; [done| |done].
    intros t Ht. by apply (distance_number _ dl). }
  assert (finite_point (Truck.x m, Truck.y m)) as Hm.
  { eapply finite_coords_elem; [done|]. by eapply list_elem_of_lookup_2. }
  apply finite_point_number in Hm as [Hm1 Hm2].
  assert (nearest_at (delete i dl) (Truck.x m, Truck.y m) j sec) as Hns.
  { apply picks_nearest; [by apply unique_ids_delete| |done].
    intros t Ht. apply (distance_number _ (delete i dl)); [done..| |done].
    by apply finite_coords_delete. }
  destruct (planRoute_from_seed fuel list s l dl source dest m sec _
              Hdl Hl Hlen Hsd Hseed) as (pre & post & _ & Hrun).
  { by rewrite (length_delete_two dl i j m sec). }
  exists source, dest, i, m, j, sec.
  split_and!; [by apply middlePoint_run|done..|].
  exists pre, post. rewrite Hrun. apply with_array_lookup.
Qed.

Lemma planRoute_seed_nearest_displayed_witness :
  ∃ source dest i m j sec,
    middlePoint 0 (Sample.displaying [Sample.A; Sample.B; Sample.C])
    = Return (center [Sample.A; Sample.B; Sample.C])
        (Sample.displaying [Sample.A; Sample.B; Sample.C]) ∧
    nearest_at [Sample.A; Sample.B; Sample.C]
      (center [Sample.A; Sample.B; Sample.C]) i m ∧
    nearest_at (delete i [Sample.A; Sample.B; Sample.C])
      (Truck.x m, Truck.y m) j sec ∧
    planRoute_seed (Sample.displaying [Sample.A; Sample.B; Sample.C]) =
      Return (source, dest)
        (with_array dest (arr [m; sec])
           (with_array source
              (arr (delete j (delete i [Sample.A; Sample.B; Sample.C])))
              (Sample.displaying [Sample.A; Sample.B; Sample.C]))) ∧
    ∃ pre post,
      returned_route
        (planRoute 1 7 (Sample.displaying [Sample.A; Sample.B; Sample.C]))
      = Some (arr (pre ++ [m; sec] ++ post)).
Proof.
  apply (planRoute_seed_nearest_displayed 1 7
           (Sample.displaying [Sample.A; Sample.B; Sample.C]) 0
           [Sample.A; Sample.B; Sample.C]);
    [reflexivity | reflexivity | by apply (bool_decide_unpack _)
    | reflexivity | simpl; lia | simpl; lia].
Defined.
